(** * memory-bank-server: storage semantics and validation contract

    A shallow embedding of the tool-call handler of [MemoryBankServer]
    (the [CallToolRequestSchema] handler, its validators and the expiry
    sweep) and the properties of the specification checked against it.

    Modelling conventions
    - A JavaScript string is its sequence of UTF-16 code units
      ([list N]); [String.prototype.length] is the length of that list.
    - The numbers of the handler are clock readings (integral
      milliseconds within the range of time values) and a [ttl] that is
      absent or an integral number (a call with a [ttl] of another kind
      is not covered). Its arithmetic ([Date.now() + ttl * 1000]) is
      that of doubles: every result is rounded to 53 bits of significand
      ([to_double]), and a result too large to be finite is written by
      [JSON.stringify] as [null], so that the record read back has no
      expiry.
    - [node-persist] is an external mapping from storage keys to records;
      it is modelled by a finite map whose operations may fail according
      to a fault plan, and whose key enumeration is that of the map.
    - [Date.now()] is an oracle indexed by the number of readings so far. *)

From Stdlib Require Import ZArith NArith List String Ascii Lia Bool.
From Stdlib Require Floats.SpecFloat.
From stdpp Require Import base option list gmap fin_maps.

Local Open Scope Z_scope.

(** ** JavaScript values and strings *)

(** Code units of an ASCII literal of the source. *)
Definition u16 (s : string) : list N :=
  List.map N_of_ascii (list_ascii_of_string s).

(** [s.length] *)
Definition js_length (s : list N) : Z := Z.of_nat (length s).

(** Values an argument of a tool call can hold at run time. [VObject]
    stands for any object or array (its contents are never inspected). *)
Inductive JsValue : Type :=
| VUndefined
| VNull
| VBool (b : bool)
| VNum (n : Z)
| VStr (s : list N)
| VObject.

(** ToBoolean *)
Definition truthy (v : JsValue) : bool :=
  match v with
  | VUndefined | VNull => false
  | VBool b => b
  | VNum n => negb (n =? 0)
  | VStr s => negb (js_length s =? 0)
  | VObject => true
  end.

(** [typeof v === 'string'] *)
Definition typeof_string (v : JsValue) : bool :=
  match v with VStr _ => true | _ => false end.

(** The string held by a value that has passed a [typeof] check. *)
Definition str (v : JsValue) : list N :=
  match v with VStr s => s | _ => [] end.

(** ** Numbers

    A number is a double. Those the handler computes with are integers
    or are not finite: in [option Z], [None] stands for a number that is
    not finite (an infinity or [NaN]). *)

(** The double nearest to the integer [x] (53 bits of significand, ties
    to the even significand), when that double is finite. *)
Definition to_double (x : Z) : option Z :=
  if Z.abs x <=? 2 ^ 53 then Some x
  else
    let k := Z.log2 (Z.abs x) - 52 in
    let q := Z.abs x / 2 ^ k in
    let r := Z.abs x mod 2 ^ k in
    let up := (2 ^ (k - 1) <? r) || ((2 ^ (k - 1) =? r) && Z.odd q) in
    let y := (if up then q + 1 else q) * 2 ^ k in
    if 2 ^ 1024 <=? y then None else Some (Z.sgn x * y).

(** [x * y] and [x + y] *)
Definition js_mul (x y : option Z) : option Z :=
  match x, y with Some a, Some b => to_double (a * b) | _, _ => None end.
Definition js_add (x y : option Z) : option Z :=
  match x, y with Some a, Some b => to_double (a + b) | _, _ => None end.

(** A time value, as [Date.now()] returns them: an integral number of
    milliseconds, at most 8.64e15 in magnitude. *)
Definition time_value (t : Z) : Prop := Z.abs t <= 8640000000000000.

(** ** Errors *)

(** The codes of [ErrorCode] the server uses. The specification calls
    them InvalidInput, NotFound, UnknownOperation and InternalError. *)
Inductive ErrorCode : Type :=
| InvalidParams
| InvalidRequest
| MethodNotFound
| InternalError.

(** A thrown value: an [McpError] built from a code and a message, or any
    other JavaScript [Error] (with its [name] and [message]). *)
Inductive Exn : Type :=
| McpError (code : ErrorCode) (message : list N)
| JsError (name message : list N).

(** [error instanceof McpError] *)
Definition is_McpError (e : Exn) : bool :=
  match e with McpError _ _ => true | JsError _ _ => false end.

(** [String(error)] for an [Error] with the given [name] and [message]:
    [Error.prototype.toString]. *)
Definition Error_toString (name message : list N) : list N :=
  match name, message with
  | [], _ => message
  | _, [] => name
  | _, _ => name ++ u16 ": " ++ message
  end.

Inductive Outcome (A : Type) : Type :=
| Return (a : A)
| Throw (e : Exn).
Arguments Return {A} a.
Arguments Throw {A} e.

(** ** Validation *)

Definition MAX_KEY_LENGTH : Z := 256.
Definition MAX_VALUE_LENGTH : Z := 1024 * 1024.

(** The character class [[a-zA-Z0-9-_:.]] on one code unit. *)
Definition key_char (c : N) : bool :=
  ((97 <=? c) && (c <=? 122) || (65 <=? c) && (c <=? 90)
   || (48 <=? c) && (c <=? 57)
   || (c =? 45) || (c =? 95) || (c =? 58) || (c =? 46))%N.

(** [KEY_PATTERN.test(s)] for [/^[a-zA-Z0-9-_:.]+$/]: the whole input is
    one or more characters of the class. *)
Definition KEY_PATTERN_test (s : list N) : bool :=
  match s with
  | [] => false
  | _ :: _ => forallb key_char s
  end.

Definition validateKey (key : JsValue) : Outcome unit :=
  if negb (truthy key) || negb (typeof_string key) then
    Throw (McpError InvalidParams (u16 "Key must be a non-empty string"))
  else if js_length (str key) >? MAX_KEY_LENGTH then
    Throw (McpError InvalidParams
             (u16 "Key length must not exceed 256 characters"))
  else if negb (KEY_PATTERN_test (str key)) then
    Throw (McpError InvalidParams
             (u16 "Key must contain only alphanumeric characters, hyphens, underscores, dots, and colons"))
  else Return tt.

Definition validateValue (value : JsValue) : Outcome unit :=
  if negb (typeof_string value) then
    Throw (McpError InvalidParams (u16 "Value must be a string"))
  else if js_length (str value) >? MAX_VALUE_LENGTH then
    Throw (McpError InvalidParams
             (u16 "Value length must not exceed 1048576 bytes"))
  else Return tt.

Definition validateNamespace (namespace : JsValue) : Outcome unit :=
  match namespace with
  | VUndefined => Return tt
  | _ => validateKey namespace
  end.

(** ** Stored records and the world the handler runs in *)

(** [interface StoredValue], as [JSON.parse] reads it back: an [expiry]
    that is absent or [null] is [None]. *)
Record StoredValue : Type := mkStoredValue {
  value : list N;
  timestamp : Z;
  expiry : option Z
}.

(** The mutable state a call can read or change: the contents of the
    storage directory, the [initialized] flag of the server, and how many
    clock readings and storage calls have happened so far. *)
Record World : Type := mkWorld {
  items : gmap (list N) StoredValue;
  initialized : bool;
  ticks : nat;
  io_calls : nat
}.

(** What the handler does not control: the value of each successive
    reading of [Date.now()] (a time value), and which storage calls are
    rejected (and with which message). *)
Record Env : Type := mkEnv {
  clock : nat -> Z;
  fault : nat -> option (list N);
  clock_range : forall n, time_value (clock n)
}.

Definition fault_free (env : Env) : Prop := forall n, fault env n = None.

(** ** The monad of the handler: state and exceptions *)

Definition M (A : Type) : Type := World -> Outcome A * World.

Definition ret {A} (a : A) : M A := fun w => (Return a, w).
Definition throw {A} (e : Exn) : M A := fun w => (Throw e, w).
Definition bind {A B} (m : M A) (k : A -> M B) : M B :=
  fun w =>
    match m w with
    | (Return a, w') => k a w'
    | (Throw e, w') => (Throw e, w')
    end.
Definition lift {A} (o : Outcome A) : M A := fun w => (o, w).

(** [try { body } catch (error) { handler }] *)
Definition try_catch {A} (body : M A) (handler : Exn -> M A) : M A :=
  fun w =>
    match body w with
    | (Return a, w') => (Return a, w')
    | (Throw e, w') => handler e w'
    end.

Declare Scope js_scope.
Delimit Scope js_scope with js.
Notation "x <- m ;; k" := (bind m (fun x => k))
  (at level 100, m at next level, right associativity) : js_scope.

(** [for (const x of xs) body(x)] *)
Fixpoint for_of {A} (xs : list A) (body : A -> M unit) : M unit :=
  match xs with
  | [] => ret tt
  | x :: xs' => bind (body x) (fun _ => for_of xs' body)
  end.

(** [Promise.all(xs.map(f))]: [map] starts every call, in order, whether
    or not an earlier one fails; the result is the list of the values, or
    the first failure. *)
Fixpoint map_all {A B} (f : A -> M B) (xs : list A) : M (list B) :=
  match xs with
  | [] => ret []
  | x :: xs' =>
      fun w =>
        let (o, w1) := f x w in
        let (os, w2) := map_all f xs' w1 in
        (match o, os with
         | Return y, Return ys => Return (y :: ys)
         | Throw e, _ => Throw e
         | Return _, Throw e => Throw e
         end, w2)
  end.

(** ** Requests and results *)

(** The argument bag of a call, one field per property the handler
    destructures; a missing property is [VUndefined] (or [None]). The
    [ttl] is restricted to what the input schema asks for, and to
    integers: it is missing, or the number an integer literal denotes.
    Nothing in the handler checks it, and a [store] whose [ttl] is of
    another kind is not covered. *)
Record Args : Type := mkArgs {
  arg_key : JsValue;
  arg_value : JsValue;
  arg_namespace : JsValue;
  arg_ttl : option Z;
  arg_includeMetadata : JsValue
}.

(** [request.params]: the tool name and the optional [arguments]. *)
Record Request : Type := mkRequest {
  name : list N;
  arguments : option Args
}.

(** One entry of [list] with [includeMetadata]; an [expiry] that is
    absent or [null] is [None]. *)
Record Item : Type := mkItem {
  item_key : list N;
  item_timestamp : Z;
  item_expiry : option Z
}.

(** The [text] of the single content element of a result. [JsonKeys ks]
    and [JsonItems l] stand for [JSON.stringify(ks, null, 2)] and
    [JSON.stringify(l, null, 2)]. *)
Inductive Content : Type :=
| Text (s : list N)
| JsonKeys (ks : list (list N))
| JsonItems (l : list Item).

(** [k.startsWith(p)] *)
Fixpoint startsWith (k p : list N) {struct p} : bool :=
  match p, k with
  | [], _ => true
  | c :: p', d :: k' => (c =? d)%N && startsWith k' p'
  | _ :: _, [] => false
  end.

(** [namespace ? `${namespace}:${key}` : key] *)
Definition storageKey (namespace key : JsValue) : list N :=
  if truthy namespace then str namespace ++ u16 ":" ++ str key
  else str key.

(** [data.expiry && now > data.expiry] *)
Definition expired (now : Z) (data : StoredValue) : bool :=
  match expiry data with
  | Some e => negb (e =? 0) && (now >? e)
  | None => false
  end.

Definition set_items (m : gmap (list N) StoredValue) (w : World) : World :=
  mkWorld m (initialized w) (ticks w) (io_calls w).
Definition set_initialized (b : bool) (w : World) : World :=
  mkWorld (items w) b (ticks w) (io_calls w).
Definition next_tick (w : World) : World :=
  mkWorld (items w) (initialized w) (S (ticks w)) (io_calls w).
Definition next_io (w : World) : World :=
  mkWorld (items w) (initialized w) (ticks w) (S (io_calls w)).

Section Handler.

Variable env : Env.

Local Open Scope js_scope.

(** *** The storage engine ([node-persist], interface [Storage])

    Every call is numbered; a call the fault plan rejects throws a plain
    [Error] and leaves the mapping as it was. *)
Definition storage_call {A}
    (op : gmap (list N) StoredValue -> A * gmap (list N) StoredValue) : M A :=
  fun w =>
    match fault env (io_calls w) with
    | Some msg => (Throw (JsError (u16 "Error") msg), next_io w)
    | None => (Return (fst (op (items w))),
               set_items (snd (op (items w))) (next_io w))
    end.

Definition storage_init : M unit := storage_call (fun m => (tt, m)).
Definition storage_setItem (k : list N) (v : StoredValue) : M unit :=
  storage_call (fun m => (tt, <[k := v]> m)).
Definition storage_getItem (k : list N) : M (option StoredValue) :=
  storage_call (fun m => (m !! k, m)).
Definition storage_removeItem (k : list N) : M unit :=
  storage_call (fun m => (tt, delete k m)).
Definition storage_keys : M (list (list N)) :=
  storage_call (fun m => ((map_to_list m).*1, m)).

(** [Date.now()] *)
Definition Date_now : M Z :=
  fun w => (Return (clock env (ticks w)), next_tick w).

(** *** The server *)

Definition ensureInitialized : M unit :=
  fun w =>
    if negb (initialized w) then
      (_ <- storage_init ;; fun w' => (Return tt, set_initialized true w')) w
    else (Return tt, w).

Definition cleanExpiredValues : M unit :=
  keys <- storage_keys ;;
  now <- Date_now ;;
  for_of keys (fun key =>
    data <- storage_getItem key ;;
    match data with
    | Some d => if expired now d then storage_removeItem key else ret tt
    | None => ret tt
    end).

(** [const { ... } = args]: destructuring [undefined] is a [TypeError]. *)
Definition destructure (first : string) (args : option Args) : M Args :=
  match args with
  | Some a => ret a
  | None =>
      throw (JsError (u16 "TypeError")
               (u16 "Cannot destructure property '" ++ u16 first
                  ++ u16 "' of 'args' as it is undefined."))
  end.

(** The record handed to [setItem] is written as it is read back: its
    [expiry] is the sum when that is finite, and [null] ([None]) when it
    is not. *)
Definition store_case (args : option Args) : M Content :=
  a <- destructure "key" args ;;
  _ <- lift (validateKey (arg_key a)) ;;
  _ <- lift (validateValue (arg_value a)) ;;
  _ <- lift (validateNamespace (arg_namespace a)) ;;
  let sk := storageKey (arg_namespace a) (arg_key a) in
  ts <- Date_now ;;
  ex <- match arg_ttl a with
        | Some ttl =>
            if negb (ttl =? 0) then
              now <- Date_now ;;
              ret (js_add (Some now) (js_mul (to_double ttl) (Some 1000)))
            else ret None
        | None => ret None
        end ;;
  _ <- storage_setItem sk (mkStoredValue (str (arg_value a)) ts ex) ;;
  ret (Text (u16 "Successfully stored value for key: " ++ str (arg_key a))).

Definition retrieve_case (args : option Args) : M Content :=
  a <- destructure "key" args ;;
  _ <- lift (validateKey (arg_key a)) ;;
  _ <- lift (validateNamespace (arg_namespace a)) ;;
  let sk := storageKey (arg_namespace a) (arg_key a) in
  data <- storage_getItem sk ;;
  let not_found :=
    McpError InvalidRequest (u16 "No value found for key: " ++ str (arg_key a)) in
  match data with
  | None => throw not_found
  | Some d =>
      gone <- match expiry d with
              | Some e =>
                  if negb (e =? 0) then now <- Date_now ;; ret (now >? e)
                  else ret false
              | None => ret false
              end ;;
      if (gone : bool) then throw not_found else ret (Text (value d))
  end.

(** The function mapped over the keys by [list] with [includeMetadata];
    reading a property of a missing record is a [TypeError]. *)
Definition read_item (key : list N) : M Item :=
  data <- storage_getItem key ;;
  match data with
  | Some d => ret (mkItem key (timestamp d) (expiry d))
  | None =>
      throw (JsError (u16 "TypeError")
               (u16 "Cannot read properties of undefined (reading 'timestamp')"))
  end.

Definition list_case (args : option Args) : M Content :=
  a <- destructure "namespace" args ;;
  _ <- lift (validateNamespace (arg_namespace a)) ;;
  keys <- storage_keys ;;
  let filteredKeys :=
    if truthy (arg_namespace a) then
      List.filter (fun k => startsWith k (str (arg_namespace a) ++ u16 ":")) keys
    else keys in
  if truthy (arg_includeMetadata a) then
    l <- map_all read_item filteredKeys ;;
    ret (JsonItems l)
  else ret (JsonKeys filteredKeys).

Definition delete_case (args : option Args) : M Content :=
  a <- destructure "key" args ;;
  _ <- lift (validateKey (arg_key a)) ;;
  _ <- lift (validateNamespace (arg_namespace a)) ;;
  let sk := storageKey (arg_namespace a) (arg_key a) in
  _ <- storage_removeItem sk ;;
  ret (Text (u16 "Successfully deleted key: " ++ str (arg_key a))).

(** [switch (name) { ... }] *)
Definition dispatch (req : Request) : M Content :=
  if bool_decide (name req = u16 "store") then store_case (arguments req)
  else if bool_decide (name req = u16 "retrieve") then
    retrieve_case (arguments req)
  else if bool_decide (name req = u16 "list") then list_case (arguments req)
  else if bool_decide (name req = u16 "delete") then
    delete_case (arguments req)
  else throw (McpError MethodNotFound (u16 "Unknown tool: " ++ name req)).

(** The [catch] clause of the handler. *)
Definition rethrow (error : Exn) : M Content :=
  match error with
  | McpError _ _ => throw error
  | JsError n m => throw (McpError InternalError (Error_toString n m))
  end.

(** The [CallToolRequestSchema] handler. *)
Definition handle (req : Request) : M Content :=
  _ <- ensureInitialized ;;
  _ <- cleanExpiredValues ;;
  try_catch (dispatch req) rethrow.

End Handler.

(** *** The advertised tools

    The answer of the [ListToolsRequestSchema] handler: for each tool its
    name, its description, the properties of its input schema (name, type,
    description) and the names its schema lists as [required]. *)
Record SchemaProperty : Type := mkProperty {
  prop_name : string;
  prop_type : string;
  prop_description : string
}.

Record Tool : Type := mkTool {
  tool_name : string;
  tool_description : string;
  tool_properties : list SchemaProperty;
  tool_required : list string
}.

Definition listTools : list Tool :=
  [ mkTool "store" "Store a value in memory bank"
      [ mkProperty "key" "string" "Key to store the value under";
        mkProperty "value" "string" "Value to store";
        mkProperty "namespace" "string" "Optional namespace to organize values";
        mkProperty "ttl" "number" "Optional time-to-live in seconds" ]
      [ "key"; "value" ]%string;
    mkTool "retrieve" "Retrieve a value from memory bank"
      [ mkProperty "key" "string" "Key to retrieve the value for";
        mkProperty "namespace" "string" "Optional namespace to retrieve from" ]
      [ "key" ]%string;
    mkTool "list" "List all stored keys in a namespace"
      [ mkProperty "namespace" "string" "Optional namespace to list keys from";
        mkProperty "includeMetadata" "boolean" "Include timestamps and expiry info" ]
      [];
    mkTool "delete" "Delete a stored value"
      [ mkProperty "key" "string" "Key to delete";
        mkProperty "namespace" "string" "Optional namespace" ]
      [ "key" ]%string ].

(** * Vocabulary of the properties

    Auxiliary notions in which the properties are stated, and the
    concrete environments, worlds and requests on which they are run. *)

(** The character class as the specification writes it:
    [[A-Za-z0-9-_:.]]. *)
Definition key_class (c : N) : Prop :=
  (N_of_ascii "A" <= c <= N_of_ascii "Z")%N
  \/ (N_of_ascii "a" <= c <= N_of_ascii "z")%N
  \/ (N_of_ascii "0" <= c <= N_of_ascii "9")%N
  \/ c = N_of_ascii "-" \/ c = N_of_ascii "_"
  \/ c = N_of_ascii ":" \/ c = N_of_ascii ".".

(** The four ways the specification says a key can be invalid. *)
Definition invalid_key (key : JsValue) : Prop :=
  typeof_string key = false
  \/ str key = []
  \/ js_length (str key) > 256
  \/ exists c, In c (str key) /\ ~ key_class c.

(** What a completed sweep at time [now] leaves of a mapping. *)
Definition swept (now : Z) (m : gmap (list N) StoredValue)
  : gmap (list N) StoredValue :=
  filter (fun kv => expired now (snd kv) = false) m.

(** The first two steps of the handler, before the [try]. *)
Definition preamble (env : Env) : M unit :=
  bind (ensureInitialized env) (fun _ => cleanExpiredValues env).

(** The body of the loop of [cleanExpiredValues]. *)
Definition sweep_body (env : Env) (now : Z) (key : list N) : M unit :=
  bind (storage_getItem env key) (fun data =>
    match data with
    | Some d => if expired now d then storage_removeItem env key else ret tt
    | None => ret tt
    end).

(** [keeps K w w']: every record of [w] selected by [K] is still there,
    unchanged, in [w']. *)
Definition keeps (K : list N -> StoredValue -> Prop) (w w' : World) : Prop :=
  forall j d, items w !! j = Some d -> K j d -> items w' !! j = Some d.

Definition M_keeps {A} (K : list N -> StoredValue -> Prop) (m : M A) : Prop :=
  forall w, keeps K w (snd (m w)).

(** The effect of the sweep on the record under one key. *)
Definition sweep1 (now : Z) (o : option StoredValue) : option StoredValue :=
  match o with
  | Some d => if expired now d then None else Some d
  | None => None
  end.

(** The record [store] builds: the time stamp is one clock reading, the
    expiry (for a truthy [ttl]) is computed from the next one. *)
Definition stored_record (env : Env) (a : Args) (t : nat) : StoredValue :=
  mkStoredValue (str (arg_value a)) (clock env t)
    match arg_ttl a with
    | Some ttl =>
        if negb (ttl =? 0) then
          js_add (Some (clock env (S t))) (js_mul (to_double ttl) (Some 1000))
        else None
    | None => None
    end.


(** The integer a binary64 number of the Standard Library stands for,
    when it is finite and integral. *)
Definition integer_of (f : SpecFloat.spec_float) : option Z :=
  match f with
  | SpecFloat.S754_zero _ => Some 0
  | SpecFloat.S754_finite s m e =>
      Some ((if s then -1 else 1)
            * (if e <? 0 then Z.pos m / 2 ^ (- e) else Z.pos m * 2 ^ e))
  | _ => None
  end.

(** Integers around the limits of the rounding: the last exact ones,
    ties, the largest double and beyond. *)
Definition rounding_samples : list Z :=
  [ 0; 1; -1; 1000; 2 ^ 53; 2 ^ 53 + 1; 2 ^ 53 + 2; 2 ^ 53 + 3;
    - (2 ^ 53 + 1); - (2 ^ 53 + 3); 2 ^ 54 + 2; 2 ^ 54 + 6; 2 ^ 55 + 12;
    9007199254746001; 3 ^ 50; - 7 ^ 100; 10 ^ 308; 10 ^ 309; - 10 ^ 309;
    (2 ^ 53 - 1) * 2 ^ 971; (2 ^ 53 - 1) * 2 ^ 971 + 2 ^ 970 - 1;
    (2 ^ 53 - 1) * 2 ^ 971 + 2 ^ 970; 2 ^ 1024 ].

Definition store_ack (a : Args) : Content :=
  Text (u16 "Successfully stored value for key: " ++ str (arg_key a)).
Definition delete_ack (a : Args) : Content :=
  Text (u16 "Successfully deleted key: " ++ str (arg_key a)).
Definition not_found (a : Args) : Exn :=
  McpError InvalidRequest (u16 "No value found for key: " ++ str (arg_key a)).

(** The keys [list] reports out of an enumeration. *)
Definition filteredKeys (a : Args) (keys : list (list N)) : list (list N) :=
  if truthy (arg_namespace a) then
    List.filter (fun k => startsWith k (str (arg_namespace a) ++ u16 ":")) keys
  else keys.

(** The entry [list] builds for a key when [includeMetadata] is set. *)
Definition item_of (m : gmap (list N) StoredValue) (it : Item) : Prop :=
  exists d, m !! item_key it = Some d
            /\ item_timestamp it = timestamp d
            /\ item_expiry it = expiry d.

(** The time value nearest to [t]. *)
Definition nearest_time (t : Z) : Z :=
  Z.max (-8640000000000000) (Z.min 8640000000000000 t).

Definition nearest_time_range (t : Z) : time_value (nearest_time t).
Proof. unfold time_value, nearest_time. lia. Qed.

(** An environment whose clock always reads [now] and whose storage
    never fails. *)
Definition steady_env (now : Z) : Env :=
  mkEnv (fun _ => nearest_time now) (fun _ => None)
    (fun _ => nearest_time_range now).

(** An environment whose clock starts at [start] and advances by [step]
    at every reading, and whose storage never fails. *)
Definition ticking_env (start step : Z) : Env :=
  mkEnv (fun n => nearest_time (start + step * Z.of_nat n)) (fun _ => None)
    (fun n => nearest_time_range (start + step * Z.of_nat n)).

(** A world holding the records [m], already initialized. *)
Definition world_of (m : gmap (list N) StoredValue) : World := mkWorld m true 0 0.

Definition store_request (key val ns : string) (ttl : option Z) : Request :=
  mkRequest (u16 "store")
    (Some (mkArgs (VStr (u16 key)) (VStr (u16 val)) (VStr (u16 ns)) ttl VUndefined)).

Definition key_args (key : JsValue) (ns : JsValue) : Args :=
  mkArgs key VUndefined ns None VUndefined.

(** A record whose expiry is the current instant, and a record whose
    expiry field is zero. *)
Definition due_now : StoredValue := mkStoredValue (u16 "v") 0 (Some 1000).
Definition zero_expiry : StoredValue := mkStoredValue (u16 "z") 0 (Some 0).

(** A record whose expiry lies before a clock that reads 2000. *)
Definition overdue : StoredValue := mkStoredValue (u16 "v") 0 (Some 1000).

(** A record whose expiry lies between two readings of a clock that
    starts at 1000 and advances by 1000. *)
Definition due_soon : StoredValue := mkStoredValue (u16 "v") 0 (Some 1500).

(** A record that expired long ago, and a key with a space in it. *)
Definition stale : StoredValue := mkStoredValue (u16 "old value") 0 (Some 1).
Definition bad_key_store : Request := store_request "bad key" "1" "proj" None.

(** Size in bytes of a string in UTF-8 (a surrogate pair takes four
    bytes, a lone surrogate three) and in UTF-16. *)
Definition is_high_surrogate (c : N) : bool := ((55296 <=? c) && (c <=? 56319))%N.
Definition is_low_surrogate (c : N) : bool := ((56320 <=? c) && (c <=? 57343))%N.

Fixpoint utf8_bytes (s : list N) : Z :=
  match s with
  | [] => 0
  | c :: r =>
      if (c <? 128)%N then 1 + utf8_bytes r
      else if (c <? 2048)%N then 2 + utf8_bytes r
      else if is_high_surrogate c then
        match r with
        | d :: r' =>
            if is_low_surrogate d then 4 + utf8_bytes r' else 3 + utf8_bytes r
        | [] => 3
        end
      else 3 + utf8_bytes r
  end.

Definition utf16_bytes (s : list N) : Z := 2 * js_length s.

(** The euro sign, U+20AC, [n] times. *)
Definition euro_sign : N := 8364.
Definition euros (n : nat) : list N := repeat euro_sign n.

(** A text of 524,289 euro signs: 1,572,867 bytes in UTF-8 and
    1,048,578 bytes in UTF-16. *)
Definition long_text : list N := euros (Z.to_nat 524289).

(** Three records, two of them under the namespace [ns]. *)
Definition plain_record (v : string) : StoredValue := mkStoredValue (u16 v) 0 None.
Definition three_keys : gmap (list N) StoredValue :=
  <[ u16 "ns:a" := plain_record "1" ]>
    (<[ u16 "b" := plain_record "2" ]>
       (<[ u16 "ns:c" := plain_record "3" ]> ∅)).
Definition list_ns_args : Args :=
  mkArgs VUndefined VUndefined (VStr (u16 "ns")) None VUndefined.

(** An environment whose [n]-th storage call is rejected with [msg]. *)
Definition failing_env (n : nat) (msg : string) : Env :=
  mkEnv (fun _ => nearest_time 1000)
    (fun i => if Nat.eqb i n then Some (u16 msg) else None)
    (fun _ => nearest_time_range 1000).

Definition list_all : Request :=
  mkRequest (u16 "list")
    (Some (mkArgs VUndefined VUndefined VUndefined None VUndefined)).

(** The storage key a [store] or a [delete] request writes to. *)
Definition targets (req : Request) (j : list N) : Prop :=
  (name req = u16 "store" \/ name req = u16 "delete")
  /\ exists a, arguments req = Some a
               /\ storageKey (arg_namespace a) (arg_key a) = j.

(** The records a request does not target. *)
Definition untargeted (req : Request) : list N -> StoredValue -> Prop :=
  fun j _ => ~ targets req j.

(** Two records, one expired long ago and one without expiry. *)
Definition old_and_new : gmap (list N) StoredValue :=
  <[ u16 "old" := stale ]> (<[ u16 "new" := plain_record "fresh" ]> ∅).

(** ** Vocabulary of the further properties *)

(** [M_rel R m]: every run of [m] takes a world to one related to it by
    [R], whether it returns or throws. *)
Definition M_rel (R : World -> World -> Prop) {A} (m : M A) : Prop :=
  forall w, R w (snd (m w)).

(** [M_throws P m]: whatever [m] throws satisfies [P]. *)
Definition M_throws (P : Exn -> Prop) {A} (m : M A) : Prop :=
  forall w e w', m w = (Throw e, w') -> P e.

(** The requests of a session, handled one after the other; the world
    each call leaves is the one the next call starts from. *)
Definition run_all (env : Env) (reqs : list Request) (w : World) : World :=
  fold_left (fun w' req => snd (handle env req w')) reqs w.

(** A storage key as [store] composes them: one or more characters of
    the key class, at most 256 + 1 + 256 of them. *)
Definition well_formed_key (j : list N) : Prop :=
  KEY_PATTERN_test j = true /\ js_length j <= 513.

(** Every key of the mapping is well formed. *)
Definition keys_well_formed (w : World) : Prop :=
  forall j, is_Some (items w !! j) -> well_formed_key j.

(** The argument a request gives for a property of the input schema. *)
Definition arg_lookup (a : Args) (p : string) : JsValue :=
  if String.eqb p "key" then arg_key a
  else if String.eqb p "value" then arg_value a
  else if String.eqb p "namespace" then arg_namespace a
  else if String.eqb p "ttl" then
    match arg_ttl a with Some n => VNum n | None => VUndefined end
  else if String.eqb p "includeMetadata" then arg_includeMetadata a
  else VUndefined.

(** [R] holds across every primitive step of the handler: it is
    reflexive and transitive, and it relates a world to the one left by a
    storage call (rejected, reading, deleting, or inserting under a well
    formed key), by a clock reading and by setting the [initialized]
    flag. *)
Definition steps_respect (R : World -> World -> Prop) : Prop :=
  (forall w, R w w)
  /\ (forall w1 w2 w3, R w1 w2 -> R w2 w3 -> R w1 w3)
  /\ (forall w, R w (next_io w))
  /\ (forall w, R w (next_tick w))
  /\ (forall w, R w (set_items (items w) (next_io w)))
  /\ (forall w, R w (set_initialized true w))
  /\ (forall w k, R w (set_items (delete k (items w)) (next_io w)))
  /\ (forall w k v, well_formed_key k ->
                   R w (set_items (<[k := v]> (items w)) (next_io w))).

(** The storage keys an answer of [list] reports, with or without
    metadata. *)
Definition listed (c : Content) : list (list N) :=
  match c with
  | JsonKeys ks => ks
  | JsonItems l => List.map item_key l
  | Text _ => []
  end.

(** From [w] to [w'] no record was added or changed, and every record
    that is gone had expired at time [now]. *)
Definition removes_only_expired (now : Z) (w w' : World) : Prop :=
  forall j,
    items w' !! j = items w !! j
    \/ (items w' !! j = None
        /\ exists d, items w !! j = Some d /\ expired now d = true).

(** The names of the advertised tools, as request names. *)
Definition tool_names : list (list N) :=
  List.map (fun t => u16 (tool_name t)) listTools.

(** The error a failed call of the handler may carry for each tool. *)
Definition code_of (e : Exn) : option ErrorCode :=
  match e with McpError c _ => Some c | JsError _ _ => None end.

(** * Properties *)

(** ** Validation *)

Lemma key_char_class (c : N) : key_char c = true <-> key_class c.
Proof.
  unfold key_char, key_class. cbn [N_of_ascii N_of_digits N.add N.mul].
  rewrite !orb_true_iff, !andb_true_iff, !N.leb_le, !N.eqb_eq. lia.
Qed.

Lemma KEY_PATTERN_test_spec (s : list N) :
  KEY_PATTERN_test s = true <-> s <> [] /\ forall c, In c s -> key_class c.
Proof.
  destruct s as [|d s]; unfold KEY_PATTERN_test.
  - split; [discriminate | intros [H _]; congruence].
  - rewrite forallb_forall. split.
    + intros H. split; [discriminate|]. intros c Hc. apply key_char_class; auto.
    + intros [_ H] c Hc. apply key_char_class; auto.
Qed.

Lemma forallb_false_witness {A} (f : A -> bool) (l : list A) :
  forallb f l = false -> exists x, In x l /\ f x = false.
Proof.
  induction l as [|x l IH]; cbn [forallb]; [discriminate|].
  destruct (f x) eqn:E; cbn [andb].
  - intros H. destruct (IH H) as [y [Hy Hf]]. exists y. split; [right|]; auto.
  - intros _. exists x. split; [left|]; auto.
Qed.

Lemma KEY_PATTERN_test_false (s : list N) :
  s <> [] -> KEY_PATTERN_test s = false ->
  exists c, In c s /\ ~ key_class c.
Proof.
  intros Hne Hf. destruct s as [|d s]; [congruence|].
  unfold KEY_PATTERN_test in Hf.
  apply forallb_false_witness in Hf. destruct Hf as [c [Hin Hc]].
  exists c. split; [exact Hin|]. rewrite <- key_char_class. congruence.
Qed.

Lemma js_length_nil_iff (s : list N) : js_length s = 0 <-> s = [].
Proof.
  unfold js_length. destruct s; cbn [length]; split; try congruence; lia.
Qed.

(** [validateKey] passes on a valid key and throws [InvalidParams] on an
    invalid one. *)
Lemma validateKey_spec (key : JsValue) :
  (validateKey key = Return tt /\ ~ invalid_key key)
  \/ ((exists m, validateKey key = Throw (McpError InvalidParams m))
      /\ invalid_key key).
Proof.
  unfold validateKey, invalid_key, MAX_KEY_LENGTH.
  destruct key as [| |b|n|s|]; cbn [truthy typeof_string negb orb str];
    rewrite ?orb_true_r, ?orb_false_r;
    try solve [right; split; [eauto | left; reflexivity]].
  destruct (js_length s =? 0) eqn:E0; cbn [negb].
  - apply Z.eqb_eq, js_length_nil_iff in E0.
    right; split; [eauto | right; left; exact E0].
  - apply Z.eqb_neq in E0.
    assert (Hne : s <> []) by (intros ->; apply E0; reflexivity).
    destruct (Z.gtb_spec (js_length s) 256) as [E1|E1].
    + right; split; [eauto | right; right; left; lia].
    + destruct (KEY_PATTERN_test s) eqn:E2; cbn [negb].
      * apply KEY_PATTERN_test_spec in E2. destruct E2 as [_ Hall].
        left. split; [reflexivity|].
        intros [Hi|[Hi|[Hi|[c [Hc Hn]]]]];
          try discriminate; try congruence; try lia.
        apply Hn, Hall, Hc.
      * right. split; [eauto|].
        right; right; right. apply KEY_PATTERN_test_false; assumption.
Qed.

Lemma validateKey_cases (key : JsValue) :
  validateKey key = Return tt
  \/ exists m, validateKey key = Throw (McpError InvalidParams m).
Proof. destruct (validateKey_spec key) as [[H _]|[H _]]; auto. Qed.

Lemma validateKey_ok_iff (key : JsValue) :
  validateKey key = Return tt <-> ~ invalid_key key.
Proof.
  destruct (validateKey_spec key) as [[H Hv]|[[m H] Hv]]; rewrite H.
  - split; auto.
  - split; [discriminate | contradiction].
Qed.

Lemma validateValue_ok_iff (v : JsValue) :
  validateValue v = Return tt <->
  typeof_string v = true /\ js_length (str v) <= 1048576.
Proof.
  unfold validateValue, MAX_VALUE_LENGTH. change (1024 * 1024) with 1048576.
  destruct (typeof_string v); simpl.
  - destruct (Z.gtb_spec (js_length (str v)) 1048576).
    + split; [discriminate | intros [_ Hl]; lia].
    + split; [intros _; split; [reflexivity | lia] | reflexivity].
  - split; [discriminate | intros [Ht _]; discriminate].
Qed.

Lemma validateValue_cases (v : JsValue) :
  validateValue v = Return tt
  \/ exists m, validateValue v = Throw (McpError InvalidParams m).
Proof.
  unfold validateValue.
  destruct (negb (typeof_string v)); [eauto|].
  destruct (js_length (str v) >? MAX_VALUE_LENGTH); eauto.
Qed.

Lemma validateNamespace_cases (ns : JsValue) :
  validateNamespace ns = Return tt
  \/ exists m, validateNamespace ns = Throw (McpError InvalidParams m).
Proof.
  destruct ns; simpl; auto; apply validateKey_cases.
Qed.

(** C8. [validateKey] fails, and then with [InvalidParams], exactly when
    the key is not a string, is empty, is longer than 256 characters, or
    contains a character outside [[A-Za-z0-9-_:.]]; a supplied namespace
    goes through the same predicate, and an absent one is always valid. *)
Theorem validateKey_fails_exactly_when_invalid :
  forall key : JsValue,
    ((exists m, validateKey key = Throw (McpError InvalidParams m))
       <-> invalid_key key)
    /\ (validateKey key = Return tt <-> ~ invalid_key key)
    /\ validateNamespace VUndefined = Return tt
    /\ (key <> VUndefined -> validateNamespace key = validateKey key).
Proof.
  intros key. split; [|split; [apply validateKey_ok_iff|split]].
  - destruct (validateKey_spec key) as [[H Hv]|[H Hv]].
    + split; [|contradiction]. intros [m Hm]. congruence.
    + split; auto.
  - reflexivity.
  - intros Hne. destruct key; try reflexivity. congruence.
Qed.

(** ** The storage engine and the sweep *)

Lemma swept_lookup (now : Z) (m : gmap (list N) StoredValue) (k : list N) :
  swept now m !! k =
  match m !! k with
  | Some d => if expired now d then None else Some d
  | None => None
  end.
Proof.
  unfold swept. destruct (m !! k) as [d|] eqn:E.
  - destruct (expired now d) eqn:Ex.
    + apply map_lookup_filter_None. right. intros x Hx. cbn.
      rewrite E in Hx. injection Hx as <-. congruence.
    + apply map_lookup_filter_Some. split; [exact E | exact Ex].
  - apply map_lookup_filter_None. left. exact E.
Qed.

Section Frame.

Variable env : Env.
Variable K : list N -> StoredValue -> Prop.

Lemma keeps_refl (w : World) : keeps K w w.
Proof. intros j d H _. exact H. Qed.

Lemma keeps_trans (w1 w2 w3 : World) :
  keeps K w1 w2 -> keeps K w2 w3 -> keeps K w1 w3.
Proof. intros H12 H23 j d Hj Hk. apply H23; [apply H12|]; assumption. Qed.

Lemma ret_keeps {A} (a : A) : M_keeps K (ret a).
Proof. intros w. apply keeps_refl. Qed.

Lemma throw_keeps {A} (e : Exn) : M_keeps K (@throw A e).
Proof. intros w. apply keeps_refl. Qed.

Lemma lift_keeps {A} (o : Outcome A) : M_keeps K (lift o).
Proof. intros w. apply keeps_refl. Qed.

Lemma bind_keeps {A B} (m : M A) (k : A -> M B) :
  M_keeps K m -> (forall a, M_keeps K (k a)) -> M_keeps K (bind m k).
Proof.
  intros Hm Hk w. unfold bind. specialize (Hm w).
  destruct (m w) as [[a|e] w1]; cbn [snd] in *; [|exact Hm].
  eapply keeps_trans; [exact Hm | apply Hk].
Qed.

Lemma try_catch_keeps {A} (m : M A) (h : Exn -> M A) :
  M_keeps K m -> (forall e, M_keeps K (h e)) -> M_keeps K (try_catch m h).
Proof.
  intros Hm Hh w. unfold try_catch. specialize (Hm w).
  destruct (m w) as [[a|e] w1]; cbn [snd] in *; [exact Hm|].
  eapply keeps_trans; [exact Hm | apply Hh].
Qed.

Lemma for_of_keeps {A} (xs : list A) (body : A -> M unit) :
  (forall x, M_keeps K (body x)) -> M_keeps K (for_of xs body).
Proof.
  intros Hb. induction xs as [|x xs IH]; cbn [for_of].
  - apply ret_keeps.
  - apply bind_keeps; [apply Hb | intros _; exact IH].
Qed.

Lemma map_all_keeps {A B} (f : A -> M B) (xs : list A) :
  (forall x, M_keeps K (f x)) -> M_keeps K (map_all f xs).
Proof.
  intros Hf. induction xs as [|x xs IH]; cbn [map_all].
  - apply ret_keeps.
  - intros w. specialize (Hf x w).
    destruct (f x w) as [o w1]. specialize (IH w1).
    destruct (map_all f xs w1) as [os w2]. cbn [snd] in *.
    eapply keeps_trans; [exact Hf | exact IH].
Qed.

Lemma storage_call_keeps {A}
    (op : gmap (list N) StoredValue -> A * gmap (list N) StoredValue) :
  (forall m j d, m !! j = Some d -> K j d -> snd (op m) !! j = Some d) ->
  M_keeps K (storage_call env op).
Proof.
  intros Hop w j d Hj Hk. unfold storage_call.
  destruct (fault env (io_calls w)); cbn; [exact Hj | apply Hop; assumption].
Qed.

Lemma Date_now_keeps : M_keeps K (Date_now env).
Proof. intros w j d H _. exact H. Qed.

Lemma storage_getItem_keeps (k : list N) : M_keeps K (storage_getItem env k).
Proof. apply storage_call_keeps. intros m j d H _. exact H. Qed.

Lemma storage_keys_keeps : M_keeps K (storage_keys env).
Proof. apply storage_call_keeps. intros m j d H _. exact H. Qed.

Lemma storage_init_keeps : M_keeps K (storage_init env).
Proof. apply storage_call_keeps. intros m j d H _. exact H. Qed.

Lemma ensureInitialized_keeps : M_keeps K (ensureInitialized env).
Proof.
  intros w. unfold ensureInitialized.
  destruct (initialized w); cbn [negb]; [apply keeps_refl|].
  pose proof (storage_init_keeps w) as H. unfold bind.
  destruct (storage_init env w) as [[[]|e] w1]; exact H.
Qed.

Lemma destructure_keeps (first : string) (args : option Args) :
  M_keeps K (destructure first args).
Proof. destruct args; [apply ret_keeps | apply throw_keeps]. Qed.

Lemma rethrow_keeps (e : Exn) : M_keeps K (rethrow e).
Proof. destruct e; apply throw_keeps. Qed.

End Frame.

Section Sweep.

Variable env : Env.

Lemma sweep1_idem (now : Z) (o : option StoredValue) :
  sweep1 now (sweep1 now o) = sweep1 now o.
Proof.
  destruct o as [d|]; cbn [sweep1]; [|reflexivity].
  destruct (expired now d) eqn:E; cbn [sweep1]; [reflexivity|].
  rewrite E. reflexivity.
Qed.

(** One turn of the loop: it touches neither the clock nor the flag, it
    keeps every record that has not expired, and when it returns it has
    removed the record under [k] exactly if that record had expired. *)
Lemma sweep_body_spec (now : Z) (k : list N) (w : World) :
  ticks (snd (sweep_body env now k w)) = ticks w
  /\ initialized (snd (sweep_body env now k w)) = initialized w
  /\ keeps (fun _ d => expired now d = false) w (snd (sweep_body env now k w))
  /\ (fst (sweep_body env now k w) = Return tt ->
      (forall j, j <> k ->
         items (snd (sweep_body env now k w)) !! j = items w !! j)
      /\ items (snd (sweep_body env now k w)) !! k = sweep1 now (items w !! k))
  /\ (fault_free env -> fst (sweep_body env now k w) = Return tt).
Proof.
  unfold sweep_body, bind, storage_getItem, storage_removeItem, storage_call,
    keeps, ret.
  destruct (fault env (io_calls w)) as [msg|] eqn:F1; cbn.
  { repeat split; auto; try discriminate.
    intros Hff. rewrite Hff in F1. discriminate. }
  destruct (items w !! k) as [d|] eqn:Ek; cbn; [|repeat split; auto].
  destruct (expired now d) eqn:Ex; cbn.
  2:{ repeat split; auto. }
  destruct (fault env (S (io_calls w))) as [msg|] eqn:F2; cbn.
  { repeat split; auto; try discriminate.
    intros Hff. rewrite Hff in F2. discriminate. }
  repeat split; auto.
  - intros j d' Hj Hd'. rewrite lookup_delete_ne; [exact Hj|].
    intros <-. rewrite Ek in Hj. injection Hj as <-. congruence.
  - intros j Hj. apply lookup_delete_ne. congruence.
  - apply lookup_delete_eq.
Qed.

Lemma sweep_loop_keeps (now : Z) (ks : list (list N)) :
  M_keeps (fun _ d => expired now d = false) (for_of ks (sweep_body env now)).
Proof.
  apply for_of_keeps. intros k w. apply sweep_body_spec.
Qed.

Lemma sweep_loop_frame (now : Z) (ks : list (list N)) (w : World) :
  ticks (snd (for_of ks (sweep_body env now) w)) = ticks w
  /\ initialized (snd (for_of ks (sweep_body env now) w)) = initialized w.
Proof.
  revert w. induction ks as [|k ks IH]; intros w; cbn [for_of].
  - split; reflexivity.
  - unfold bind. pose proof (sweep_body_spec now k w) as (Ht & Hi & _).
    destruct (sweep_body env now k w) as [[[]|e] w1]; cbn [snd] in *.
    + destruct (IH w1) as [Ht' Hi']. split; congruence.
    + split; assumption.
Qed.

Lemma sweep_loop_returns (now : Z) (ks : list (list N)) (w : World) :
  fault_free env -> fst (for_of ks (sweep_body env now) w) = Return tt.
Proof.
  intros Hff. revert w. induction ks as [|k ks IH]; intros w; cbn [for_of].
  - reflexivity.
  - unfold bind. pose proof (sweep_body_spec now k w) as (_ & _ & _ & _ & Hr).
    specialize (Hr Hff).
    destruct (sweep_body env now k w) as [[[]|e] w1]; cbn [fst] in *;
      [apply IH | discriminate].
Qed.

(** A loop that returns has swept exactly the keys it was given. *)
Lemma sweep_loop_lookup (now : Z) (ks : list (list N)) (w : World) :
  fst (for_of ks (sweep_body env now) w) = Return tt ->
  forall j,
    items (snd (for_of ks (sweep_body env now) w)) !! j =
    if bool_decide (j ∈ ks) then sweep1 now (items w !! j) else items w !! j.
Proof.
  revert w. induction ks as [|k ks IH]; intros w; cbn [for_of].
  - intros _ j. rewrite bool_decide_eq_false_2; [reflexivity|].
    apply not_elem_of_nil.
  - unfold bind. pose proof (sweep_body_spec now k w) as (_ & _ & _ & Hs & _).
    destruct (sweep_body env now k w) as [[[]|e] w1]; cbn [fst snd] in *;
      [|discriminate].
    destruct (Hs eq_refl) as [Hne Heq]. intros Hret j.
    rewrite (IH w1 Hret j).
    destruct (decide (j = k)) as [->|Hjk].
    + rewrite Heq. rewrite (bool_decide_eq_true_2 (k ∈ k :: ks));
        [|apply elem_of_cons; left; reflexivity].
      destruct (bool_decide (k ∈ ks)); [apply sweep1_idem | reflexivity].
    + rewrite (Hne j Hjk).
      assert (Hiff : bool_decide (j ∈ k :: ks) = bool_decide (j ∈ ks)).
      { apply bool_decide_ext. rewrite elem_of_cons. tauto. }
      rewrite Hiff. reflexivity.
Qed.

Lemma elem_of_keys (m : gmap (list N) StoredValue) (j : list N) :
  j ∈ (map_to_list m).*1 <-> is_Some (m !! j).
Proof.
  rewrite list_elem_of_fmap. split.
  - intros [[j' d] [-> H]]. apply elem_of_map_to_list in H. cbn. eauto.
  - intros [d H]. exists (j, d). split; [reflexivity|].
    apply elem_of_map_to_list. exact H.
Qed.

Lemma cleanExpiredValues_unfold (w : World) :
  cleanExpiredValues env w =
  bind (storage_keys env) (fun keys =>
    bind (Date_now env) (fun now => for_of keys (sweep_body env now))) w.
Proof. reflexivity. Qed.

(** A sweep that returns normally has read the clock once and has left
    exactly the records that had not expired at that reading. *)
Lemma cleanExpiredValues_returns (w w' : World) :
  cleanExpiredValues env w = (Return tt, w') ->
  items w' = swept (clock env (ticks w)) (items w)
  /\ ticks w' = S (ticks w)
  /\ initialized w' = initialized w.
Proof.
  rewrite cleanExpiredValues_unfold.
  unfold bind at 1. unfold storage_keys, storage_call.
  destruct (fault env (io_calls w)); [discriminate|]. cbn [fst snd].
  unfold bind, Date_now.
  set (w1 := next_tick (set_items (items w) (next_io w))).
  set (now := clock env (ticks (set_items (items w) (next_io w)))).
  set (ks := (map_to_list (items w)).*1).
  intros Hrun.
  pose proof (sweep_loop_lookup now ks w1) as Hl.
  pose proof (sweep_loop_frame now ks w1) as [Ht Hi].
  rewrite Hrun in Hl, Ht, Hi. cbn [fst snd] in *.
  split; [|split; [exact Ht | exact Hi]].
  apply map_eq. intros j. rewrite (Hl eq_refl j), swept_lookup.
  change (items w1) with (items w). change now with (clock env (ticks w)).
  destruct (bool_decide (j ∈ ks)) eqn:E; [reflexivity|].
  apply bool_decide_eq_false_1 in E. unfold ks in E.
  rewrite elem_of_keys in E.
  destruct (items w !! j) as [d|]; [exfalso; apply E; eauto | reflexivity].
Qed.

Lemma cleanExpiredValues_fault_free (w : World) :
  fault_free env ->
  exists w', cleanExpiredValues env w = (Return tt, w').
Proof.
  intros Hff. rewrite cleanExpiredValues_unfold.
  unfold bind at 1. unfold storage_keys, storage_call. rewrite Hff.
  cbn [fst snd]. unfold bind, Date_now.
  match goal with |- context [for_of ?ks (sweep_body env ?now) ?w1] =>
    pose proof (sweep_loop_returns now ks w1 Hff) as Hr;
    destruct (for_of ks (sweep_body env now) w1) as [o w2] end.
  cbn [fst] in Hr. subst o. eauto.
Qed.

Lemma cleanExpiredValues_keeps (w : World) :
  keeps (fun _ d => expired (clock env (ticks w)) d = false)
    w (snd (cleanExpiredValues env w)).
Proof.
  rewrite cleanExpiredValues_unfold.
  unfold bind at 1. unfold storage_keys, storage_call.
  destruct (fault env (io_calls w)); [intros j d H _; exact H|].
  cbn [fst snd]. unfold bind, Date_now.
  match goal with |- context [for_of ?ks (sweep_body env ?now) ?w1] =>
    pose proof (sweep_loop_keeps now ks w1) as Hk;
    destruct (for_of ks (sweep_body env now) w1) as [[[]|e] w2] end;
    exact Hk.
Qed.

End Sweep.

(** ** The handler, case by case *)

Lemma bind_Return {A B} (m : M A) (k : A -> M B) (w w1 : World) (a : A) :
  m w = (Return a, w1) -> bind m k w = k a w1.
Proof. intros H. unfold bind. rewrite H. reflexivity. Qed.

Lemma bind_Throw {A B} (m : M A) (k : A -> M B) (w w1 : World) (e : Exn) :
  m w = (Throw e, w1) -> bind m k w = (Throw e, w1).
Proof. intros H. unfold bind. rewrite H. reflexivity. Qed.

Lemma handle_unfold (env : Env) (req : Request) (w : World) :
  handle env req w =
  match preamble env w with
  | (Return _, w') => try_catch (dispatch env req) rethrow w'
  | (Throw e, w') => (Throw e, w')
  end.
Proof.
  unfold handle, preamble, bind.
  destruct (ensureInitialized env w) as [[[]|e] w1]; [|reflexivity].
  destruct (cleanExpiredValues env w1) as [[[]|e] w2]; reflexivity.
Qed.

Lemma dispatch_store (env : Env) (args : option Args) :
  dispatch env (mkRequest (u16 "store") args) = store_case env args.
Proof. reflexivity. Qed.

Lemma dispatch_retrieve (env : Env) (args : option Args) :
  dispatch env (mkRequest (u16 "retrieve") args) = retrieve_case env args.
Proof. reflexivity. Qed.

Lemma dispatch_list (env : Env) (args : option Args) :
  dispatch env (mkRequest (u16 "list") args) = list_case env args.
Proof. reflexivity. Qed.

Lemma dispatch_delete (env : Env) (args : option Args) :
  dispatch env (mkRequest (u16 "delete") args) = delete_case env args.
Proof. reflexivity. Qed.

Lemma try_catch_rethrow_Return (m : M Content) (w w' : World) (c : Content) :
  m w = (Return c, w') -> try_catch m rethrow w = (Return c, w').
Proof. intros H. unfold try_catch. rewrite H. reflexivity. Qed.

Lemma try_catch_rethrow_McpError (m : M Content) (w w' : World)
    (code : ErrorCode) (msg : list N) :
  m w = (Throw (McpError code msg), w') ->
  try_catch m rethrow w = (Throw (McpError code msg), w').
Proof. intros H. unfold try_catch. rewrite H. reflexivity. Qed.

Section FaultFree.

Variable env : Env.
Hypothesis Hff : fault_free env.

Lemma storage_call_ff {A}
    (op : gmap (list N) StoredValue -> A * gmap (list N) StoredValue)
    (w : World) :
  storage_call env op w =
  (Return (fst (op (items w))), set_items (snd (op (items w))) (next_io w)).
Proof. unfold storage_call. rewrite Hff. reflexivity. Qed.

Lemma preamble_ff (w : World) :
  exists w',
    preamble env w = (Return tt, w')
    /\ items w' = swept (clock env (ticks w)) (items w)
    /\ ticks w' = S (ticks w).
Proof.
  unfold preamble, bind, ensureInitialized.
  destruct (initialized w) eqn:Ei; cbn [negb].
  - destruct (cleanExpiredValues_fault_free env w Hff) as [w' Hw'].
    rewrite Hw'. exists w'. split; [reflexivity|].
    apply cleanExpiredValues_returns in Hw'. tauto.
  - unfold bind, storage_init. rewrite storage_call_ff. cbn [fst snd].
    set (w1 := set_initialized true _).
    destruct (cleanExpiredValues_fault_free env w1 Hff) as [w' Hw'].
    rewrite Hw'. exists w'. split; [reflexivity|].
    apply cleanExpiredValues_returns in Hw'. tauto.
Qed.

Lemma store_case_ff (a : Args) (w : World) :
  validateKey (arg_key a) = Return tt ->
  validateValue (arg_value a) = Return tt ->
  validateNamespace (arg_namespace a) = Return tt ->
  exists w',
    store_case env (Some a) w = (Return (store_ack a), w')
    /\ items w' =
       <[storageKey (arg_namespace a) (arg_key a) :=
           stored_record env a (ticks w)]> (items w).
Proof.
  intros Hk Hv Hn. unfold store_case, destructure, bind, lift, ret, Date_now.
  rewrite Hk, Hv, Hn. unfold stored_record, store_ack.
  destruct (arg_ttl a) as [ttl|]; [destruct (negb (ttl =? 0))|];
    unfold storage_setItem; rewrite storage_call_ff; cbn [fst snd];
    eexists; (split; [reflexivity|]); reflexivity.
Qed.

Lemma retrieve_case_ff (a : Args) (w : World) :
  validateKey (arg_key a) = Return tt ->
  validateNamespace (arg_namespace a) = Return tt ->
  exists w',
    retrieve_case env (Some a) w =
      (match items w !! storageKey (arg_namespace a) (arg_key a) with
       | None => Throw (not_found a)
       | Some d =>
           if expired (clock env (ticks w)) d then Throw (not_found a)
           else Return (Text (value d))
       end, w')
    /\ items w' = items w.
Proof.
  intros Hk Hn. unfold retrieve_case, destructure, bind, lift, ret, throw.
  rewrite Hk, Hn. unfold storage_getItem. rewrite storage_call_ff.
  cbn [fst snd]. unfold not_found, expired, Date_now.
  destruct (items w !! storageKey (arg_namespace a) (arg_key a)) as [d|];
    [|eexists; split; reflexivity].
  destruct (expiry d) as [e|]; [|eexists; split; reflexivity].
  destruct (negb (e =? 0)); cbn [andb]; [|eexists; split; reflexivity].
  cbn [ticks set_items next_io].
  destruct (clock env (ticks w) >? e); eexists; split; reflexivity.
Qed.

Lemma delete_case_ff (a : Args) (w : World) :
  validateKey (arg_key a) = Return tt ->
  validateNamespace (arg_namespace a) = Return tt ->
  exists w',
    delete_case env (Some a) w = (Return (delete_ack a), w')
    /\ items w' = delete (storageKey (arg_namespace a) (arg_key a)) (items w).
Proof.
  intros Hk Hn. unfold delete_case, destructure, bind, lift, ret.
  rewrite Hk, Hn. unfold storage_removeItem. rewrite storage_call_ff.
  cbn [fst snd]. eexists; split; reflexivity.
Qed.

End FaultFree.

(** ** Listing *)

Lemma startsWith_spec (k p : list N) :
  startsWith k p = true <-> exists r, k = p ++ r.
Proof.
  revert k. induction p as [|c p IH]; intros k; cbn [startsWith].
  - split; [intros _; exists k; reflexivity | reflexivity].
  - destruct k as [|d k].
    + split; [discriminate | intros [r Hr]; discriminate].
    + rewrite andb_true_iff, N.eqb_eq, IH. split.
      * intros [-> [r ->]]. exists r. reflexivity.
      * intros [r Hr]. injection Hr as -> ->. eauto.
Qed.

(** Filtering with [startsWith] keeps exactly the keys that begin with
    the prefix. *)
Lemma filter_startsWith_In (p : list N) (keys : list (list N)) (k : list N) :
  In k (List.filter (fun k => startsWith k p) keys)
  <-> In k keys /\ exists r, k = p ++ r.
Proof. rewrite filter_In, startsWith_spec. reflexivity. Qed.

Section Listing.

Variable env : Env.
Hypothesis Hff : fault_free env.

Lemma read_items_ff (ks : list (list N)) (w : World) :
  (forall k, In k ks -> is_Some (items w !! k)) ->
  exists l w',
    map_all (read_item env) ks w = (Return l, w')
    /\ items w' = items w
    /\ List.map item_key l = ks
    /\ Forall (item_of (items w)) l.
Proof.
  revert w. induction ks as [|k ks IH]; intros w Hin; cbn [map_all].
  - exists [], w. repeat split; constructor.
  - destruct (Hin k (or_introl eq_refl)) as [d Hd].
    unfold read_item at 1. unfold bind at 1.
    unfold storage_getItem. rewrite (storage_call_ff env Hff). cbn [fst snd].
    rewrite Hd. unfold ret at 1.
    set (w1 := set_items (items w) (next_io w)).
    destruct (IH w1) as (l & w' & Hrun & Hit & Hkeys & Hall).
    { intros k' Hk'. apply Hin. right. exact Hk'. }
    rewrite Hrun.
    exists (mkItem k (timestamp d) (expiry d) :: l), w'.
    split; [reflexivity|]. split; [exact Hit|].
    split; [cbn [List.map item_key]; congruence|].
    constructor; [|exact Hall]. exists d. auto.
Qed.

Lemma filteredKeys_In (a : Args) (keys : list (list N)) (k : list N) :
  In k (filteredKeys a keys) -> In k keys.
Proof.
  unfold filteredKeys. destruct (truthy (arg_namespace a)); [|auto].
  intros H. apply filter_In in H. tauto.
Qed.

Lemma list_case_ff (a : Args) (w : World) :
  validateNamespace (arg_namespace a) = Return tt ->
  exists w',
    items w' = items w
    /\ if truthy (arg_includeMetadata a) then
         exists l,
           list_case env (Some a) w = (Return (JsonItems l), w')
           /\ List.map item_key l = filteredKeys a (map_to_list (items w)).*1
           /\ Forall (item_of (items w)) l
       else
         list_case env (Some a) w =
         (Return (JsonKeys (filteredKeys a (map_to_list (items w)).*1)), w').
Proof.
  intros Hn. unfold list_case.
  erewrite bind_Return; [|reflexivity].
  erewrite bind_Return; [|unfold lift; rewrite Hn; reflexivity].
  erewrite bind_Return; [|apply (storage_call_ff env Hff)].
  cbn [fst snd]. fold (filteredKeys a (map_to_list (items w)).*1).
  set (w1 := set_items (items w) (next_io w)).
  destruct (truthy (arg_includeMetadata a)).
  - destruct (read_items_ff (filteredKeys a (map_to_list (items w)).*1) w1)
      as (l & w' & Hrun & Hit & Hkeys & Hall).
    { intros k Hk. apply filteredKeys_In in Hk.
      apply elem_of_keys. apply list_elem_of_In. exact Hk. }
    exists w'. split; [exact Hit|]. exists l.
    split; [|split; assumption].
    unfold bind. rewrite Hrun. reflexivity.
  - exists w1. split; reflexivity.
Qed.

End Listing.

(** ** Concrete runs *)

Lemma steady_env_fault_free (now : Z) : fault_free (steady_env now).
Proof. intros n. reflexivity. Qed.

(** ** Round trip: [store] then [retrieve] *)

(** C1. For a valid key, value and optional namespace, [store] without a
    TTL followed by [retrieve] with the same key and namespace succeeds
    and returns exactly the stored value. *)
Theorem store_then_retrieve_roundtrip :
  forall (env : Env) (w : World) (a b : Args),
    fault_free env ->
    validateKey (arg_key a) = Return tt ->
    validateValue (arg_value a) = Return tt ->
    validateNamespace (arg_namespace a) = Return tt ->
    arg_ttl a = None ->
    arg_key b = arg_key a ->
    arg_namespace b = arg_namespace a ->
    exists (v : list N) (w1 w2 : World),
      arg_value a = VStr v
      /\ handle env (mkRequest (u16 "store") (Some a)) w
         = (Return (store_ack a), w1)
      /\ handle env (mkRequest (u16 "retrieve") (Some b)) w1
         = (Return (Text v), w2).
Proof.
  intros env w a b Hff Hk Hv Hn Httl Hbk Hbn.
  assert (Hstr : exists v, arg_value a = VStr v).
  { apply validateValue_ok_iff in Hv. destruct Hv as [Hv _].
    destruct (arg_value a); try discriminate. eauto. }
  destruct Hstr as [v Hval].
  destruct (preamble_ff env Hff w) as (w0 & Hpre & _ & _).
  destruct (store_case_ff env Hff a w0 Hk Hv Hn) as (w1 & Hst & Hit1).
  destruct (preamble_ff env Hff w1) as (w1' & Hpre1 & Hit1' & _).
  assert (Hkb : validateKey (arg_key b) = Return tt) by congruence.
  assert (Hnb : validateNamespace (arg_namespace b) = Return tt) by congruence.
  destruct (retrieve_case_ff env Hff b w1' Hkb Hnb) as (w2 & Hre & _).
  exists v, w1, w2. split; [exact Hval|]. split.
  - rewrite handle_unfold, Hpre, dispatch_store.
    apply try_catch_rethrow_Return. exact Hst.
  - rewrite handle_unfold, Hpre1, dispatch_retrieve.
    apply try_catch_rethrow_Return. rewrite Hre. f_equal.
    rewrite Hbk, Hbn, Hit1', swept_lookup, Hit1, lookup_insert_eq.
    unfold stored_record, expired. cbn [expiry value]. rewrite Httl, Hval.
    reflexivity.
Qed.

Lemma store_then_retrieve_roundtrip_witness :
  exists (v : list N) (w1 w2 : World),
    VStr (u16 "1") = VStr v
    /\ handle (steady_env 1000) (store_request "a" "1" "proj" None) (world_of ∅)
       = (Return (Text (u16 "Successfully stored value for key: a")), w1)
    /\ handle (steady_env 1000)
         (mkRequest (u16 "retrieve")
            (Some (key_args (VStr (u16 "a")) (VStr (u16 "proj"))))) w1
       = (Return (Text v), w2).
Proof.
  apply (store_then_retrieve_roundtrip (steady_env 1000) (world_of ∅)
           (mkArgs (VStr (u16 "a")) (VStr (u16 "1")) (VStr (u16 "proj"))
              None VUndefined)
           (key_args (VStr (u16 "a")) (VStr (u16 "proj"))));
    solve [reflexivity | intros n; reflexivity].
Defined.

(** ** Expiry *)

Lemma ensureInitialized_returns (env : Env) (w w' : World) :
  ensureInitialized env w = (Return tt, w') ->
  items w' = items w /\ ticks w' = ticks w.
Proof.
  unfold ensureInitialized, bind, storage_init, storage_call.
  destruct (initialized w); cbn [negb].
  - intros H. injection H as <-. auto.
  - destruct (fault env (io_calls w)); [discriminate|].
    intros H. injection H as <-. auto.
Qed.

(** When the steps before the [try] return normally, they leave exactly
    the records that had not expired at the sweep's clock reading. *)
Lemma preamble_returns (env : Env) (w w' : World) :
  preamble env w = (Return tt, w') ->
  items w' = swept (clock env (ticks w)) (items w).
Proof.
  unfold preamble, bind.
  destruct (ensureInitialized env w) as [[[]|e] w0] eqn:E0; [|discriminate].
  apply ensureInitialized_returns in E0. destruct E0 as [Hi Ht].
  intros H. apply cleanExpiredValues_returns in H.
  destruct H as (H & _ & _). rewrite H, Hi, Ht. reflexivity.
Qed.

Lemma expired_true_iff (now : Z) (d : StoredValue) :
  expired now d = true <-> exists e, expiry d = Some e /\ e <> 0 /\ e < now.
Proof.
  unfold expired. destruct (expiry d) as [e|].
  - rewrite andb_true_iff, negb_true_iff, Z.eqb_neq, Z.gtb_ltb, Z.ltb_lt.
    split.
    + intros [H0 Hlt]. exists e. auto.
    + intros [e' [He [H0 Hlt]]]. injection He as <-. auto.
  - split; [discriminate | intros [e [He _]]; discriminate].
Qed.

(** C2, as stated, fails: with [expiry <= now] the record is still
    served when the expiry equals the clock reading, and when the expiry
    field is zero. *)
Lemma retrieve_at_expiry_instant_returns_value :
  expiry due_now = Some 1000
  /\ clock (steady_env 1000) 0 = 1000
  /\ handle (steady_env 1000)
       (mkRequest (u16 "retrieve") (Some (key_args (VStr (u16 "k")) VUndefined)))
       (world_of {[ u16 "k" := due_now ]})
     = (Return (Text (u16 "v")),
        mkWorld {[ u16 "k" := due_now ]} true 2 3)
  /\ expiry zero_expiry = Some 0
  /\ fst (handle (steady_env 1000)
            (mkRequest (u16 "retrieve")
               (Some (key_args (VStr (u16 "k")) VUndefined)))
            (world_of {[ u16 "k" := zero_expiry ]}))
     = Return (Text (u16 "z")).
Proof. vm_compute. repeat split; reflexivity. Qed.

Lemma expired_false_iff (now : Z) (d : StoredValue) :
  expired now d = false
  <-> expiry d = None \/ expiry d = Some 0
      \/ exists e, expiry d = Some e /\ now <= e.
Proof.
  unfold expired. destruct (expiry d) as [e|].
  - rewrite andb_false_iff, negb_false_iff, Z.eqb_eq, Z.gtb_ltb, Z.ltb_ge.
    split.
    + intros [->|Hle]; [right; left; reflexivity|].
      right; right. exists e. auto.
    + intros [H|[H|[e' [H Hle]]]]; [discriminate| |].
      * injection H as ->. left. reflexivity.
      * injection H as <-. right. exact Hle.
  - split; [left; reflexivity | reflexivity].
Qed.

(** C2, amended. [retrieve] reads the clock once, after the lookup; in
    the handler the sweep has read it once before. For a stored record
    and a valid key and namespace that compose to its storage key:
    - the lookup alone fails with [InvalidRequest] (NotFound) when the
      expiry is set, nonzero and strictly earlier than its reading, and
      the record stays in the mapping; it returns the value when the
      record has no expiry, or the expiry is zero or not earlier than
      the reading;
    - the whole handler fails with NotFound when the expiry is set,
      nonzero and strictly earlier than the reading of the sweep or than
      that of [retrieve]; a record the sweep has passed over is then
      still in the mapping after the call; it returns the value when the
      record has no expiry, or the expiry is zero or earlier than
      neither reading. *)
Theorem retrieve_expired_is_not_found :
  forall (env : Env) (w : World) (a : Args) (d : StoredValue),
    fault_free env ->
    validateKey (arg_key a) = Return tt ->
    validateNamespace (arg_namespace a) = Return tt ->
    items w !! storageKey (arg_namespace a) (arg_key a) = Some d ->
    (forall e, expiry d = Some e -> e <> 0 -> e < clock env (ticks w) ->
       exists w',
         retrieve_case env (Some a) w = (Throw (not_found a), w')
         /\ items w' !! storageKey (arg_namespace a) (arg_key a) = Some d)
    /\ (expiry d = None \/ expiry d = Some 0
        \/ (exists e, expiry d = Some e /\ clock env (ticks w) <= e) ->
        exists w',
          retrieve_case env (Some a) w = (Return (Text (value d)), w'))
    /\ (forall e, expiry d = Some e -> e <> 0 ->
          e < clock env (ticks w) \/ e < clock env (S (ticks w)) ->
          exists w',
            handle env (mkRequest (u16 "retrieve") (Some a)) w
            = (Throw (not_found a), w')
            /\ (clock env (ticks w) <= e ->
                items w' !! storageKey (arg_namespace a) (arg_key a) = Some d))
    /\ (expiry d = None \/ expiry d = Some 0
        \/ (exists e, expiry d = Some e
                      /\ clock env (ticks w) <= e
                      /\ clock env (S (ticks w)) <= e) ->
        exists w',
          handle env (mkRequest (u16 "retrieve") (Some a)) w
          = (Return (Text (value d)), w')).
Proof.
  intros env w a d Hff Hk Hn Hd.
  destruct (retrieve_case_ff env Hff a w Hk Hn) as (w1 & Hre1 & Hit1).
  rewrite Hd in Hre1.
  destruct (preamble_ff env Hff w) as (w0 & Hpre & Hit0 & Ht0).
  destruct (retrieve_case_ff env Hff a w0 Hk Hn) as (w2 & Hre2 & Hit2).
  rewrite Hit0, swept_lookup, Hd, Ht0 in Hre2.
  assert (Hrun : handle env (mkRequest (u16 "retrieve") (Some a)) w
                 = try_catch (retrieve_case env (Some a)) rethrow w0).
  { rewrite handle_unfold, Hpre, dispatch_retrieve. reflexivity. }
  split; [|split; [|split]].
  - intros e He H0 Hlt. exists w1. split; [|rewrite Hit1; exact Hd].
    rewrite Hre1.
    replace (expired (clock env (ticks w)) d) with true; [reflexivity|].
    symmetry. apply expired_true_iff. exists e. auto.
  - intros Hlive. exists w1. rewrite Hre1.
    replace (expired (clock env (ticks w)) d) with false; [reflexivity|].
    symmetry. apply expired_false_iff.
    destruct Hlive as [H|[H|[e [H Hle]]]]; eauto.
  - intros e He H0 Hlt. exists w2. rewrite Hrun. split.
    + apply try_catch_rethrow_McpError. rewrite Hre2.
      destruct (expired (clock env (ticks w)) d) eqn:Ex0; [reflexivity|].
      replace (expired (clock env (S (ticks w))) d) with true; [reflexivity|].
      symmetry. apply expired_true_iff. exists e.
      split; [exact He|]. split; [exact H0|].
      destruct Hlt as [Hlt|Hlt]; [|exact Hlt].
      assert (Hex : expired (clock env (ticks w)) d = true)
        by (apply expired_true_iff; exists e; auto).
      congruence.
    + intros Hle. rewrite Hit2, Hit0, swept_lookup, Hd.
      replace (expired (clock env (ticks w)) d) with false; [reflexivity|].
      symmetry. apply expired_false_iff. right; right. exists e. auto.
  - intros Hlive. exists w2. rewrite Hrun.
    apply try_catch_rethrow_Return. rewrite Hre2.
    assert (Hex : forall n, (n = ticks w \/ n = S (ticks w)) ->
                            expired (clock env n) d = false).
    { intros n Hn'. apply expired_false_iff.
      destruct Hlive as [H|[H|[e (H & Hle0 & Hle1)]]]; [auto | auto |].
      right; right. exists e. destruct Hn' as [-> | ->]; auto. }
    rewrite (Hex (ticks w)), (Hex (S (ticks w))) by auto. reflexivity.
Qed.

Lemma retrieve_expired_is_not_found_witness :
  (exists w',
      retrieve_case (steady_env 2000)
        (Some (key_args (VStr (u16 "k")) VUndefined))
        (world_of {[ u16 "k" := overdue ]})
      = (Throw (McpError InvalidRequest (u16 "No value found for key: k")), w')
      /\ items w' !! u16 "k" = Some overdue)
  /\ (exists w',
        handle (ticking_env 1000 1000)
          (mkRequest (u16 "retrieve")
             (Some (key_args (VStr (u16 "k")) VUndefined)))
          (world_of {[ u16 "k" := due_soon ]})
        = (Throw (McpError InvalidRequest (u16 "No value found for key: k")), w')
        /\ items w' !! u16 "k" = Some due_soon)
  /\ (exists w',
        handle (steady_env 1000)
          (mkRequest (u16 "retrieve")
             (Some (key_args (VStr (u16 "k")) VUndefined)))
          (world_of {[ u16 "k" := due_now ]})
        = (Return (Text (u16 "v")), w')).
Proof.
  split; [|split].
  - destruct (retrieve_expired_is_not_found (steady_env 2000)
                (world_of {[ u16 "k" := overdue ]})
                (key_args (VStr (u16 "k")) VUndefined) overdue
                (steady_env_fault_free 2000) eq_refl eq_refl)
      as (Hlookup & _); [vm_compute; reflexivity|].
    apply (Hlookup 1000); [reflexivity | discriminate | reflexivity].
  - destruct (retrieve_expired_is_not_found (ticking_env 1000 1000)
                (world_of {[ u16 "k" := due_soon ]})
                (key_args (VStr (u16 "k")) VUndefined) due_soon
                (fun n => eq_refl) eq_refl eq_refl)
      as (_ & _ & Hcall & _); [vm_compute; reflexivity|].
    destruct (Hcall 1500 eq_refl) as (w' & Hrun & Hstays);
      [discriminate | right; reflexivity |].
    exists w'. split; [exact Hrun|]. apply Hstays. discriminate.
  - destruct (retrieve_expired_is_not_found (steady_env 1000)
                (world_of {[ u16 "k" := due_now ]})
                (key_args (VStr (u16 "k")) VUndefined) due_now
                (steady_env_fault_free 1000) eq_refl eq_refl)
      as (_ & _ & _ & Hserved); [vm_compute; reflexivity|].
    apply Hserved. right; right. exists 1000.
    split; [reflexivity|]. split; discriminate.
Defined.

(** ** Validation failures *)

Lemma store_case_invalid (env : Env) (a : Args) (w : World) :
  validateKey (arg_key a) <> Return tt
  \/ validateValue (arg_value a) <> Return tt
  \/ validateNamespace (arg_namespace a) <> Return tt ->
  exists m, store_case env (Some a) w = (Throw (McpError InvalidParams m), w).
Proof.
  intros Hbad. unfold store_case, destructure, bind, lift, ret.
  destruct (validateKey_cases (arg_key a)) as [Hk|[m Hk]]; rewrite Hk;
    [|eauto].
  destruct (validateValue_cases (arg_value a)) as [Hv|[m Hv]]; rewrite Hv;
    [|eauto].
  destruct (validateNamespace_cases (arg_namespace a)) as [Hn|[m Hn]];
    rewrite Hn; [|eauto].
  exfalso. destruct Hbad as [H|[H|H]]; contradiction.
Qed.

Lemma retrieve_case_invalid (env : Env) (a : Args) (w : World) :
  validateKey (arg_key a) <> Return tt
  \/ validateNamespace (arg_namespace a) <> Return tt ->
  exists m, retrieve_case env (Some a) w = (Throw (McpError InvalidParams m), w).
Proof.
  intros Hbad. unfold retrieve_case, destructure, bind, lift, ret.
  destruct (validateKey_cases (arg_key a)) as [Hk|[m Hk]]; rewrite Hk;
    [|eauto].
  destruct (validateNamespace_cases (arg_namespace a)) as [Hn|[m Hn]];
    rewrite Hn; [|eauto].
  exfalso. destruct Hbad as [H|H]; contradiction.
Qed.

Lemma delete_case_invalid (env : Env) (a : Args) (w : World) :
  validateKey (arg_key a) <> Return tt
  \/ validateNamespace (arg_namespace a) <> Return tt ->
  exists m, delete_case env (Some a) w = (Throw (McpError InvalidParams m), w).
Proof.
  intros Hbad. unfold delete_case, destructure, bind, lift, ret.
  destruct (validateKey_cases (arg_key a)) as [Hk|[m Hk]]; rewrite Hk;
    [|eauto].
  destruct (validateNamespace_cases (arg_namespace a)) as [Hn|[m Hn]];
    rewrite Hn; [|eauto].
  exfalso. destruct Hbad as [H|H]; contradiction.
Qed.

Lemma list_case_invalid (env : Env) (a : Args) (w : World) :
  validateNamespace (arg_namespace a) <> Return tt ->
  exists m, list_case env (Some a) w = (Throw (McpError InvalidParams m), w).
Proof.
  intros Hbad. unfold list_case, destructure, bind, lift, ret.
  destruct (validateNamespace_cases (arg_namespace a)) as [Hn|[m Hn]];
    rewrite Hn; [contradiction | eauto].
Qed.

(** C3, as stated, fails: a [store] whose key is invalid is rejected with
    [InvalidParams], yet the mapping has changed, because the sweep ran
    (and deleted the expired record) before the key was validated. *)
Lemma invalid_store_still_sweeps :
  validateKey (VStr (u16 "bad key")) <> Return tt
  /\ items (world_of {[ u16 "old" := stale ]}) !! u16 "old" = Some stale
  /\ fst (handle (steady_env 1000) bad_key_store
            (world_of {[ u16 "old" := stale ]}))
     = Throw (McpError InvalidParams
                (u16 "Key must contain only alphanumeric characters, hyphens, underscores, dots, and colons"))
  /\ items (snd (handle (steady_env 1000) bad_key_store
                   (world_of {[ u16 "old" := stale ]}))) !! u16 "old" = None
  /\ items (snd (handle (steady_env 1000) bad_key_store
                   (world_of {[ u16 "old" := stale ]})))
     <> items (world_of {[ u16 "old" := stale ]}).
Proof.
  split; [vm_compute; discriminate|].
  split; [vm_compute; reflexivity|].
  split; [vm_compute; reflexivity|].
  split; [vm_compute; reflexivity|].
  intros Heq.
  pose proof (f_equal (fun m : gmap (list N) StoredValue => m !! u16 "old") Heq)
    as Hold.
  vm_compute in Hold. discriminate.
Qed.

(** C3, amended. When the inputs of an operation fail validation, the
    call fails with [InvalidParams] (InvalidInput) and performs no write
    or delete of its own: the world it leaves is exactly the one left by
    the steps that precede validation, whose expiry sweep has removed the
    records that had expired and nothing else. *)
Theorem invalid_input_changes_nothing_after_sweep :
  forall (env : Env) (w w1 : World) (a : Args),
    preamble env w = (Return tt, w1) ->
    items w1 = swept (clock env (ticks w)) (items w)
    /\ (validateKey (arg_key a) <> Return tt
        \/ validateValue (arg_value a) <> Return tt
        \/ validateNamespace (arg_namespace a) <> Return tt ->
        exists m, handle env (mkRequest (u16 "store") (Some a)) w
                  = (Throw (McpError InvalidParams m), w1))
    /\ (validateKey (arg_key a) <> Return tt
        \/ validateNamespace (arg_namespace a) <> Return tt ->
        exists m, handle env (mkRequest (u16 "retrieve") (Some a)) w
                  = (Throw (McpError InvalidParams m), w1))
    /\ (validateNamespace (arg_namespace a) <> Return tt ->
        exists m, handle env (mkRequest (u16 "list") (Some a)) w
                  = (Throw (McpError InvalidParams m), w1))
    /\ (validateKey (arg_key a) <> Return tt
        \/ validateNamespace (arg_namespace a) <> Return tt ->
        exists m, handle env (mkRequest (u16 "delete") (Some a)) w
                  = (Throw (McpError InvalidParams m), w1)).
Proof.
  intros env w w1 a Hpre.
  split; [apply preamble_returns; exact Hpre|].
  repeat split; intros Hbad; rewrite handle_unfold, Hpre.
  - destruct (store_case_invalid env a w1 Hbad) as [m Hm]. exists m.
    rewrite dispatch_store. apply try_catch_rethrow_McpError. exact Hm.
  - destruct (retrieve_case_invalid env a w1 Hbad) as [m Hm]. exists m.
    rewrite dispatch_retrieve. apply try_catch_rethrow_McpError. exact Hm.
  - destruct (list_case_invalid env a w1 Hbad) as [m Hm]. exists m.
    rewrite dispatch_list. apply try_catch_rethrow_McpError. exact Hm.
  - destruct (delete_case_invalid env a w1 Hbad) as [m Hm]. exists m.
    rewrite dispatch_delete. apply try_catch_rethrow_McpError. exact Hm.
Qed.

Lemma invalid_input_changes_nothing_after_sweep_witness :
  exists m,
    handle (steady_env 1000) bad_key_store (world_of {[ u16 "old" := stale ]})
    = (Throw (McpError InvalidParams m),
       snd (preamble (steady_env 1000) (world_of {[ u16 "old" := stale ]}))).
Proof.
  refine (proj1 (proj2
    (invalid_input_changes_nothing_after_sweep (steady_env 1000)
       (world_of {[ u16 "old" := stale ]})
       (snd (preamble (steady_env 1000) (world_of {[ u16 "old" := stale ]})))
       (mkArgs (VStr (u16 "bad key")) (VStr (u16 "1")) (VStr (u16 "proj"))
          None VUndefined) _)) _).
  - vm_compute. reflexivity.
  - left. vm_compute. discriminate.
Defined.

(** ** The size limit on values *)

Lemma js_length_euros (n : nat) : js_length (euros n) = Z.of_nat n.
Proof. unfold js_length, euros. rewrite repeat_length. reflexivity. Qed.

Lemma utf8_bytes_euros (n : nat) : utf8_bytes (euros n) = 3 * Z.of_nat n.
Proof.
  induction n as [|n IH]; [reflexivity|].
  change (euros (S n)) with (euro_sign :: euros n).
  change (utf8_bytes (euro_sign :: euros n)) with (3 + utf8_bytes (euros n)).
  rewrite IH. lia.
Qed.

(** No encoding is shorter than one byte per code unit. *)
Lemma utf8_bytes_ge_length (s : list N) : js_length s <= utf8_bytes s.
Proof.
  unfold js_length.
  assert (H : forall n (t : list N),
             (length t <= n)%nat -> Z.of_nat (length t) <= utf8_bytes t).
  { induction n as [|n IH]; intros t Hn.
    - destruct t; [cbn; lia | cbn in Hn; lia].
    - destruct t as [|c r]; [cbn; lia|].
      assert (Hr : Z.of_nat (length r) <= utf8_bytes r)
        by (apply IH; cbn in Hn; lia).
      cbn [utf8_bytes length]. rewrite Nat2Z.inj_succ.
      destruct (c <? 128)%N; [lia|].
      destruct (c <? 2048)%N; [lia|].
      destruct (is_high_surrogate c); [|lia].
      destruct r as [|d r']; [cbn; lia|].
      destruct (is_low_surrogate d); [|lia].
      assert (Hr' : Z.of_nat (length r') <= utf8_bytes r')
        by (apply IH; cbn in Hn; lia).
      cbn [length]. rewrite Nat2Z.inj_succ. lia. }
  apply (H (length s)). lia.
Qed.

(** A string value of at most 1 MiB of bytes passes [validateValue]. *)
Lemma value_within_one_MiB_is_accepted (s : list N) :
  utf8_bytes s <= 1048576 -> validateValue (VStr s) = Return tt.
Proof.
  intros H. apply validateValue_ok_iff. split; [reflexivity|].
  cbn [str]. pose proof (utf8_bytes_ge_length s). lia.
Qed.

Lemma store_valid_ff (env : Env) (w : World) (a : Args) :
  fault_free env ->
  validateKey (arg_key a) = Return tt ->
  validateValue (arg_value a) = Return tt ->
  validateNamespace (arg_namespace a) = Return tt ->
  exists w',
    handle env (mkRequest (u16 "store") (Some a)) w = (Return (store_ack a), w')
    /\ items w' =
       <[storageKey (arg_namespace a) (arg_key a) :=
           stored_record env a (S (ticks w))]>
         (swept (clock env (ticks w)) (items w)).
Proof.
  intros Hff Hk Hv Hn.
  destruct (preamble_ff env Hff w) as (w0 & Hpre & Hit0 & Ht0).
  destruct (store_case_ff env Hff a w0 Hk Hv Hn) as (w' & Hst & Hit).
  exists w'. split.
  - rewrite handle_unfold, Hpre, dispatch_store.
    apply try_catch_rethrow_Return. exact Hst.
  - rewrite Hit, Hit0, Ht0. reflexivity.
Qed.

(** C4, at the failing input. A value of 524,289 euro signs is larger
    than 1 MiB in bytes (in UTF-8 and in UTF-16 alike), but its [length]
    is 524,289: [validateValue] accepts it and [store] writes it. *)
Theorem store_accepts_text_over_one_MiB_of_bytes :
  js_length long_text = 524289
  /\ utf8_bytes long_text = 1572867
  /\ utf16_bytes long_text = 1048578
  /\ 1572867 > 1048576 /\ 1048578 > 1048576
  /\ validateValue (VStr long_text) = Return tt
  /\ exists w',
       handle (steady_env 1000)
         (mkRequest (u16 "store")
            (Some (mkArgs (VStr (u16 "k")) (VStr long_text) VUndefined None
                     VUndefined)))
         (world_of ∅)
       = (Return (Text (u16 "Successfully stored value for key: k")), w')
       /\ items w' !! u16 "k" = Some (mkStoredValue long_text 1000 None).
Proof.
  assert (Hlen : js_length long_text = 524289).
  { unfold long_text. rewrite js_length_euros. apply Z2Nat.id. lia. }
  assert (Hval : validateValue (VStr long_text) = Return tt).
  { apply validateValue_ok_iff. split; [reflexivity|].
    cbn [str]. rewrite Hlen. lia. }
  split; [exact Hlen|].
  split; [unfold long_text; rewrite utf8_bytes_euros, Z2Nat.id; lia|].
  split; [unfold utf16_bytes; rewrite Hlen; lia|].
  split; [lia|]. split; [lia|]. split; [exact Hval|].
  generalize dependent long_text. intros v _ Hval.
  destruct (store_valid_ff (steady_env 1000) (world_of ∅)
              (mkArgs (VStr (u16 "k")) (VStr v) VUndefined None VUndefined)
              (steady_env_fault_free 1000) eq_refl Hval eq_refl)
    as (w' & Hrun & Hit).
  exists w'. split; [exact Hrun|].
  rewrite Hit. apply lookup_insert_eq.
Qed.

(** ** The record [store] writes *)



(** On the samples, [to_double] is the rounding of the Standard
    Library's binary64 numbers. *)
Example to_double_is_binary64_rounding :
  Forall (fun x => to_double x
                   = integer_of (SpecFloat.binary_normalize 53 1024 x 0 false))
    rounding_samples.
Proof.
  unfold rounding_samples.
  repeat (constructor; [vm_compute; reflexivity|]). constructor.
Qed.





(** Beyond the safe integers the sum is rounded, and a sum too large for
    a double leaves a record without expiry. *)
Example store_rounds_a_large_expiry :
  (exists w',
      handle (steady_env 5001) (store_request "a" "1" "proj" (Some 9007199254741))
        (world_of ∅)
      = (Return (Text (u16 "Successfully stored value for key: a")), w')
      /\ items w' !! u16 "proj:a"
         = Some (mkStoredValue (u16 "1") 5001 (Some 9007199254746000)))
  /\ (exists w',
        handle (steady_env 5001) (store_request "a" "1" "proj" (Some (- 10 ^ 306)))
          (world_of ∅)
        = (Return (Text (u16 "Successfully stored value for key: a")), w')
        /\ items w' !! u16 "proj:a" = Some (mkStoredValue (u16 "1") 5001 None)).
Proof. split; eexists; split; vm_compute; reflexivity. Qed.




(** ** [list] *)

(** The filter of [list] selects, in their order, the keys of which the
    prefix is an initial segment. *)
Lemma filter_startsWith_prefix (p : list N) (keys : list (list N)) :
  List.filter (fun k => startsWith k p) keys
  = filter (fun k => p `prefix_of` k) keys.
Proof.
  induction keys as [|k keys IH]; [reflexivity|].
  cbn [List.filter]. rewrite filter_cons, IH.
  destruct (startsWith k p) eqn:E.
  - rewrite decide_True; [reflexivity|]. apply startsWith_spec. exact E.
  - rewrite decide_False; [reflexivity|]. intros H.
    apply startsWith_spec in H. congruence.
Qed.

(** C6. On every state, the [list] case (without metadata) returns
    storage keys of the mapping, in the order the mapping enumerates
    them: all of them when no namespace is given, and otherwise exactly
    those that begin with the namespace followed by a colon (the
    subsequence of the enumeration selected by that property).  Through
    the handler, the state it enumerates is the one the sweep has left. *)
Theorem list_returns_prefixed_keys_in_enumeration_order :
  forall (env : Env) (w : World) (a : Args),
    fault_free env ->
    validateNamespace (arg_namespace a) = Return tt ->
    truthy (arg_includeMetadata a) = false ->
    (exists (ks : list (list N)) (w' : World),
        list_case env (Some a) w = (Return (JsonKeys ks), w')
        /\ items w' = items w
        /\ (arg_namespace a = VUndefined -> ks = (map_to_list (items w)).*1)
        /\ (forall ns, arg_namespace a = VStr ns ->
            ks = filter (fun k => (ns ++ u16 ":") `prefix_of` k)
                   (map_to_list (items w)).*1))
    /\ (exists (ks : list (list N)) (w' : World),
          handle env (mkRequest (u16 "list") (Some a)) w
          = (Return (JsonKeys ks), w')
          /\ items w' = swept (clock env (ticks w)) (items w)
          /\ (arg_namespace a = VUndefined -> ks = (map_to_list (items w')).*1)
          /\ (forall ns, arg_namespace a = VStr ns ->
              ks = filter (fun k => (ns ++ u16 ":") `prefix_of` k)
                     (map_to_list (items w')).*1)).
Proof.
  intros env w a Hff Hn Hmeta.
  assert (Hcase : forall w0, exists ks w',
             list_case env (Some a) w0 = (Return (JsonKeys ks), w')
             /\ items w' = items w0
             /\ (arg_namespace a = VUndefined ->
                 ks = (map_to_list (items w0)).*1)
             /\ (forall ns, arg_namespace a = VStr ns ->
                 ks = filter (fun k => (ns ++ u16 ":") `prefix_of` k)
                        (map_to_list (items w0)).*1)).
  { intros w0. destruct (list_case_ff env Hff a w0 Hn) as (w' & Hit & Hrun).
    rewrite Hmeta in Hrun.
    exists (filteredKeys a (map_to_list (items w0)).*1), w'.
    split; [exact Hrun|]. split; [exact Hit|].
    unfold filteredKeys. split.
    - intros ->. reflexivity.
    - intros ns Hns. rewrite Hns in Hn |- *. cbn [truthy str].
      cbn [validateNamespace] in Hn.
      destruct (validateKey_spec (VStr ns)) as [[_ Hv]|[[m Hm] _]];
        [|congruence].
      assert (Hne : js_length ns <> 0).
      { intros H0. apply Hv. right. left. apply js_length_nil_iff. exact H0. }
      apply Z.eqb_neq in Hne. rewrite Hne. cbn [negb].
      apply filter_startsWith_prefix. }
  split; [apply Hcase|].
  destruct (preamble_ff env Hff w) as (w0 & Hpre & Hit0 & _).
  destruct (Hcase w0) as (ks & w' & Hrun & Hit & Hall & Hns).
  exists ks, w'. rewrite handle_unfold, Hpre, dispatch_list.
  split; [apply try_catch_rethrow_Return; exact Hrun|].
  rewrite Hit. split; [exact Hit0|]. split; assumption.
Qed.

Lemma list_returns_prefixed_keys_in_enumeration_order_witness :
  (exists (ks : list (list N)) (w' : World),
      list_case (steady_env 1000) (Some list_ns_args) (world_of three_keys)
      = (Return (JsonKeys ks), w')
      /\ items w' = items (world_of three_keys)
      /\ (arg_namespace list_ns_args = VUndefined ->
          ks = (map_to_list (items (world_of three_keys))).*1)
      /\ (forall ns, arg_namespace list_ns_args = VStr ns ->
          ks = filter (fun k => (ns ++ u16 ":") `prefix_of` k)
                 (map_to_list (items (world_of three_keys))).*1))
  /\ (exists (ks : list (list N)) (w' : World),
        handle (steady_env 1000) (mkRequest (u16 "list") (Some list_ns_args))
          (world_of three_keys)
        = (Return (JsonKeys ks), w')
        /\ items w' = swept (clock (steady_env 1000) (ticks (world_of three_keys)))
                        (items (world_of three_keys))
        /\ (arg_namespace list_ns_args = VUndefined ->
            ks = (map_to_list (items w')).*1)
        /\ (forall ns, arg_namespace list_ns_args = VStr ns ->
            ks = filter (fun k => (ns ++ u16 ":") `prefix_of` k)
                   (map_to_list (items w')).*1)).
Proof.
  apply (list_returns_prefixed_keys_in_enumeration_order (steady_env 1000)
           (world_of three_keys) list_ns_args).
  - intros n. reflexivity.
  - vm_compute. reflexivity.
  - reflexivity.
Defined.

(** The scenario of the specification: only the keys of [ns] are listed
    under [ns], and every key is listed without a namespace. *)
Example list_scenario :
  fst (handle (steady_env 1000) (mkRequest (u16 "list") (Some list_ns_args))
         (world_of three_keys))
  = Return (JsonKeys (List.filter (fun k => startsWith k (u16 "ns:"))
                        (map_to_list three_keys).*1))
  /\ Permutation (List.filter (fun k => startsWith k (u16 "ns:"))
                    (map_to_list three_keys).*1)
       [u16 "ns:a"; u16 "ns:c"]
  /\ fst (handle (steady_env 1000)
            (mkRequest (u16 "list")
               (Some (mkArgs VUndefined VUndefined VUndefined None VUndefined)))
            (world_of three_keys))
     = Return (JsonKeys (map_to_list three_keys).*1).
Proof.
  split; [vm_compute; reflexivity|]. split; [|vm_compute; reflexivity].
  vm_compute. 
  first [ reflexivity | apply perm_swap ].
Qed.

(** ** [delete] *)

Lemma delete_valid_ff (env : Env) (w : World) (a : Args) :
  fault_free env ->
  validateKey (arg_key a) = Return tt ->
  validateNamespace (arg_namespace a) = Return tt ->
  exists w',
    handle env (mkRequest (u16 "delete") (Some a)) w = (Return (delete_ack a), w')
    /\ items w' =
       delete (storageKey (arg_namespace a) (arg_key a))
         (swept (clock env (ticks w)) (items w)).
Proof.
  intros Hff Hk Hn.
  destruct (preamble_ff env Hff w) as (w0 & Hpre & Hit0 & _).
  destruct (delete_case_ff env Hff a w0 Hk Hn) as (w' & Hrun & Hit).
  exists w'. split.
  - rewrite handle_unfold, Hpre, dispatch_delete.
    apply try_catch_rethrow_Return. exact Hrun.
  - rewrite Hit, Hit0. reflexivity.
Qed.

(** C7, as stated, fails: for a key that is not valid (here the empty
    string) [delete] does not succeed, and the [retrieve] that follows
    fails with [InvalidParams], not with NotFound. *)
Lemma delete_of_invalid_key_is_rejected :
  fst (handle (steady_env 1000)
         (mkRequest (u16 "delete") (Some (key_args (VStr []) VUndefined)))
         (world_of ∅))
  = Throw (McpError InvalidParams (u16 "Key must be a non-empty string"))
  /\ fst (handle (steady_env 1000)
            (mkRequest (u16 "retrieve") (Some (key_args (VStr []) VUndefined)))
            (snd (handle (steady_env 1000)
                    (mkRequest (u16 "delete")
                       (Some (key_args (VStr []) VUndefined)))
                    (world_of ∅))))
     = Throw (McpError InvalidParams (u16 "Key must be a non-empty string")).
Proof. split; vm_compute; reflexivity. Qed.

(** C7, amended. For every valid key and valid optional namespace,
    [delete] succeeds with an acknowledgement naming the original key,
    whether or not a record exists under the storage key, and a
    [retrieve] with the same key and namespace that follows fails with
    [InvalidRequest] (NotFound). *)
Theorem delete_succeeds_then_retrieve_not_found :
  forall (env : Env) (w : World) (a b : Args),
    fault_free env ->
    validateKey (arg_key a) = Return tt ->
    validateNamespace (arg_namespace a) = Return tt ->
    arg_key b = arg_key a ->
    arg_namespace b = arg_namespace a ->
    exists (w1 w2 : World),
      handle env (mkRequest (u16 "delete") (Some a)) w
      = (Return (Text (u16 "Successfully deleted key: " ++ str (arg_key a))), w1)
      /\ items w1 !! storageKey (arg_namespace a) (arg_key a) = None
      /\ handle env (mkRequest (u16 "retrieve") (Some b)) w1
         = (Throw (McpError InvalidRequest
                     (u16 "No value found for key: " ++ str (arg_key a))), w2).
Proof.
  intros env w a b Hff Hk Hn Hbk Hbn.
  destruct (delete_valid_ff env w a Hff Hk Hn) as (w1 & Hdel & Hit1).
  destruct (preamble_ff env Hff w1) as (w1' & Hpre & Hit1' & _).
  assert (Hkb : validateKey (arg_key b) = Return tt) by congruence.
  assert (Hnb : validateNamespace (arg_namespace b) = Return tt) by congruence.
  destruct (retrieve_case_ff env Hff b w1' Hkb Hnb) as (w2 & Hre & _).
  exists w1, w2. split; [exact Hdel|].
  split; [rewrite Hit1; apply lookup_delete_eq|].
  rewrite handle_unfold, Hpre, dispatch_retrieve.
  apply try_catch_rethrow_McpError. rewrite Hre.
  rewrite Hbk, Hbn, Hit1', swept_lookup, Hit1, lookup_delete_eq.
  unfold not_found. rewrite Hbk. reflexivity.
Qed.

Lemma delete_succeeds_then_retrieve_not_found_witness :
  exists (w1 w2 : World),
    handle (steady_env 1000)
      (mkRequest (u16 "delete")
         (Some (key_args (VStr (u16 "a")) (VStr (u16 "proj"))))) (world_of ∅)
    = (Return (Text (u16 "Successfully deleted key: a")), w1)
    /\ items w1 !! u16 "proj:a" = None
    /\ handle (steady_env 1000)
         (mkRequest (u16 "retrieve")
            (Some (key_args (VStr (u16 "a")) (VStr (u16 "proj"))))) w1
       = (Throw (McpError InvalidRequest (u16 "No value found for key: a")), w2).
Proof.
  apply (delete_succeeds_then_retrieve_not_found (steady_env 1000) (world_of ∅)
           (key_args (VStr (u16 "a")) (VStr (u16 "proj")))
           (key_args (VStr (u16 "a")) (VStr (u16 "proj"))));
    solve [reflexivity | intros n; reflexivity].
Defined.

(** ** Error kinds *)

(** Whatever is thrown inside the [try] leaves the handler as an
    [McpError]; an error that is not one is wrapped as [InternalError]
    around [String(error)]. *)
Lemma errors_inside_try_are_wrapped (env : Env) (req : Request)
    (w w' : World) (e : Exn) :
  try_catch (dispatch env req) rethrow w = (Throw e, w') ->
  (exists code m, e = McpError code m /\
                  dispatch env req w = (Throw (McpError code m), w'))
  \/ (exists n m, e = McpError InternalError (Error_toString n m) /\
                  dispatch env req w = (Throw (JsError n m), w')).
Proof.
  unfold try_catch. destruct (dispatch env req w) as [[c|[code m|n m]] w1];
    cbn [rethrow]; unfold throw; intros H; inversion H; subst; eauto.
Qed.

(** An error the handler surfaces is an [McpError] unless it was thrown
    by the steps that run before the [try]. *)
Lemma handle_error_origin (env : Env) (req : Request) (w w' : World) (e : Exn) :
  handle env req w = (Throw e, w') ->
  (exists code m, e = McpError code m) \/ preamble env w = (Throw e, w').
Proof.
  rewrite handle_unfold.
  destruct (preamble env w) as [[[]|e0] w0];
    [|intros H; right; injection H as -> ->; reflexivity].
  intros H. left. apply errors_inside_try_are_wrapped in H.
  destruct H as [(code & m & -> & _)|(n & m & -> & _)]; eauto.
Qed.

(** C9, at the failing input. When the storage rejects the key
    enumeration of the sweep (or the initialization), which run before
    the [try], the error reaches the caller as it is, not as one of the
    four error kinds; the same rejection inside the [try] is wrapped as
    [InternalError] around the original message. *)
Theorem sweep_failure_is_surfaced_unwrapped :
  handle (failing_env 0 "EIO: i/o error, scandir") list_all (world_of ∅)
  = (Throw (JsError (u16 "Error") (u16 "EIO: i/o error, scandir")),
     mkWorld ∅ true 0 1)
  /\ is_McpError (JsError (u16 "Error") (u16 "EIO: i/o error, scandir")) = false
  /\ handle (failing_env 0 "EACCES: permission denied, mkdir") list_all
       (mkWorld ∅ false 0 0)
     = (Throw (JsError (u16 "Error") (u16 "EACCES: permission denied, mkdir")),
        mkWorld ∅ false 0 1)
  /\ handle (failing_env 1 "EIO: i/o error, scandir") list_all (world_of ∅)
     = (Throw (McpError InternalError (u16 "Error: EIO: i/o error, scandir")),
        mkWorld ∅ true 1 2).
Proof. repeat split; vm_compute; reflexivity. Qed.

(** ** The sweep removes expired records only *)

Lemma bind_ret_keeps {A B} (K : list N -> StoredValue -> Prop)
    (a : A) (k : A -> M B) :
  M_keeps K (k a) -> M_keeps K (bind (ret a) k).
Proof. intros H w. apply H. Qed.

Lemma bind_throw_keeps {A B} (K : list N -> StoredValue -> Prop)
    (e : Exn) (k : A -> M B) :
  M_keeps K (bind (throw e) k).
Proof. intros w. apply keeps_refl. Qed.

Section DispatchFrame.

Variable env : Env.
Variable req : Request.

Lemma store_case_keeps :
  name req = u16 "store" -> M_keeps (untargeted req) (store_case env (arguments req)).
Proof.
  intros Hname. unfold store_case.
  destruct (arguments req) as [a|] eqn:Hargs; cbn [destructure];
    [apply bind_ret_keeps | apply bind_throw_keeps].
  apply bind_keeps; [apply lift_keeps | intros _].
  apply bind_keeps; [apply lift_keeps | intros _].
  apply bind_keeps; [apply lift_keeps | intros _].
  apply bind_keeps; [apply Date_now_keeps | intros ts].
  apply bind_keeps.
  { destruct (arg_ttl a) as [ttl|]; [|apply ret_keeps].
    destruct (negb (ttl =? 0)); [|apply ret_keeps].
    apply bind_keeps; [apply Date_now_keeps | intros now; apply ret_keeps]. }
  intros ex. apply bind_keeps; [|intros _; apply ret_keeps].
  apply storage_call_keeps. intros m j d Hj Hk. cbn [snd].
  rewrite lookup_insert_ne; [exact Hj|].
  intros Heq. apply Hk. split; [left; exact Hname|]. eauto.
Qed.

Lemma delete_case_keeps :
  name req = u16 "delete" -> M_keeps (untargeted req) (delete_case env (arguments req)).
Proof.
  intros Hname. unfold delete_case.
  destruct (arguments req) as [a|] eqn:Hargs; cbn [destructure];
    [apply bind_ret_keeps | apply bind_throw_keeps].
  apply bind_keeps; [apply lift_keeps | intros _].
  apply bind_keeps; [apply lift_keeps | intros _].
  apply bind_keeps; [|intros _; apply ret_keeps].
  apply storage_call_keeps. intros m j d Hj Hk. cbn [snd].
  rewrite lookup_delete_ne; [exact Hj|].
  intros Heq. apply Hk. split; [right; exact Hname|]. eauto.
Qed.

Lemma retrieve_case_keeps (K : list N -> StoredValue -> Prop)
    (args : option Args) :
  M_keeps K (retrieve_case env args).
Proof.
  unfold retrieve_case.
  apply bind_keeps; [apply destructure_keeps | intros a].
  apply bind_keeps; [apply lift_keeps | intros _].
  apply bind_keeps; [apply lift_keeps | intros _].
  apply bind_keeps; [apply storage_getItem_keeps | intros data].
  destruct data as [d|]; [|apply throw_keeps].
  apply bind_keeps.
  { destruct (expiry d) as [e|]; [|apply ret_keeps].
    destruct (negb (e =? 0)); [|apply ret_keeps].
    apply bind_keeps; [apply Date_now_keeps | intros now; apply ret_keeps]. }
  intros gone. destruct gone; [apply throw_keeps | apply ret_keeps].
Qed.

Lemma list_case_keeps (K : list N -> StoredValue -> Prop)
    (args : option Args) :
  M_keeps K (list_case env args).
Proof.
  unfold list_case.
  apply bind_keeps; [apply destructure_keeps | intros a].
  apply bind_keeps; [apply lift_keeps | intros _].
  apply bind_keeps; [apply storage_keys_keeps | intros keys].
  destruct (truthy (arg_includeMetadata a)); [|apply ret_keeps].
  apply bind_keeps; [|intros l; apply ret_keeps].
  apply map_all_keeps. intros key. unfold read_item.
  apply bind_keeps; [apply storage_getItem_keeps | intros data].
  destruct data; [apply ret_keeps | apply throw_keeps].
Qed.

(** The dispatched operation leaves every record it does not target as
    it was, whatever the storage does. *)
Lemma dispatch_keeps : M_keeps (untargeted req) (dispatch env req).
Proof.
  unfold dispatch.
  case_bool_decide as Hs; [apply store_case_keeps; exact Hs|].
  case_bool_decide as Hr; [apply retrieve_case_keeps|].
  case_bool_decide as Hl; [apply list_case_keeps|].
  case_bool_decide as Hd; [apply delete_case_keeps; exact Hd|].
  apply throw_keeps.
Qed.

End DispatchFrame.

(** [store] never leaves a storage key without a record. *)
Lemma store_case_present (env : Env) (args : option Args) (w : World)
    (j : list N) :
  is_Some (items w !! j) ->
  is_Some (items (snd (store_case env args w)) !! j).
Proof.
  intros Hj. unfold store_case, destructure, bind, lift, ret, throw, Date_now,
    storage_setItem, storage_call.
  destruct args as [a|]; [|exact Hj].
  destruct (validateKey (arg_key a)); [|exact Hj].
  destruct (validateValue (arg_value a)); [|exact Hj].
  destruct (validateNamespace (arg_namespace a)); [|exact Hj].
  assert (Hins : forall v,
             is_Some (<[storageKey (arg_namespace a) (arg_key a) := v]>
                        (items w) !! j)).
  { intros v. rewrite lookup_insert. case_decide; eauto. }
  destruct (arg_ttl a) as [ttl|]; [destruct (negb (ttl =? 0))|]; cbn;
    match goal with |- context [fault env ?n] => destruct (fault env n) end;
    cbn; auto.
Qed.

Lemma try_catch_rethrow_world (m : M Content) (w : World) :
  snd (try_catch m rethrow w) = snd (m w).
Proof.
  unfold try_catch. destruct (m w) as [[c|[code msg|n msg]] w1]; reflexivity.
Qed.

Lemma ensureInitialized_ticks (env : Env) (w : World) :
  ticks (snd (ensureInitialized env w)) = ticks w.
Proof.
  unfold ensureInitialized, bind, storage_init, storage_call.
  destruct (initialized w); cbn [negb]; [reflexivity|].
  destruct (fault env (io_calls w)); reflexivity.
Qed.

(** Whatever the storage does, the steps before the [try] keep every
    record that has not expired at the sweep's clock reading. *)
Lemma preamble_keeps (env : Env) (w : World) :
  keeps (fun _ d => expired (clock env (ticks w)) d = false)
    w (snd (preamble env w)).
Proof.
  unfold preamble, bind.
  pose proof (ensureInitialized_keeps env
                (fun _ d => expired (clock env (ticks w)) d = false) w) as H0.
  pose proof (ensureInitialized_ticks env w) as Ht.
  destruct (ensureInitialized env w) as [[[]|e] w0]; cbn [snd] in *;
    [|exact H0].
  eapply keeps_trans; [exact H0|]. rewrite <- Ht.
  apply cleanExpiredValues_keeps.
Qed.

Lemma handle_world (env : Env) (req : Request) (w : World) :
  snd (handle env req w) =
  match preamble env w with
  | (Return _, w0) => snd (dispatch env req w0)
  | (Throw _, w0) => w0
  end.
Proof.
  rewrite handle_unfold. destruct (preamble env w) as [[[]|e] w0];
    [apply try_catch_rethrow_world | reflexivity].
Qed.

Lemma targets_dec (req : Request) (j : list N) :
  targets req j \/ ~ targets req j.
Proof.
  unfold targets.
  destruct (arguments req) as [a|];
    [|right; intros [_ [a [Ha _]]]; discriminate].
  destruct (decide (storageKey (arg_namespace a) (arg_key a) = j)) as [Hj|Hj];
    [|right; intros [_ [a' [Ha Hk]]]; injection Ha as <-; contradiction].
  destruct (decide (name req = u16 "store")) as [Hs|Hs];
    [left; split; eauto|].
  destruct (decide (name req = u16 "delete")) as [Hd|Hd];
    [left; split; eauto|].
  right. intros [[H|H] _]; contradiction.
Qed.

(** A record that has not expired at the sweep's clock reading and that
    the request does not target is unchanged by the call. *)
Lemma handle_keeps_untargeted (env : Env) (req : Request) (w : World)
    (j : list N) (d : StoredValue) :
  items w !! j = Some d ->
  expired (clock env (ticks w)) d = false ->
  ~ targets req j ->
  items (snd (handle env req w)) !! j = Some d.
Proof.
  intros Hj Hlive Hnt. rewrite handle_world.
  pose proof (preamble_keeps env w j d Hj Hlive) as H0.
  destruct (preamble env w) as [[[]|e] w0]; cbn [snd] in H0; [|exact H0].
  apply (dispatch_keeps env req w0 j d H0 Hnt).
Qed.

(** C10. A sweep that completes removes a record exactly when its expiry
    is set, nonzero and strictly earlier than the sweep's clock reading;
    every other record is still there with the same contents.  Through
    the whole handler, and whatever the storage does, a record that has
    not expired at that reading is unchanged unless the request targets
    its key, and it is gone only if that request is a [delete]. *)
Theorem sweep_removes_exactly_the_expired :
  forall (env : Env) (w w' : World),
    cleanExpiredValues env w = (Return tt, w') ->
    (forall j,
        (is_Some (items w !! j) /\ items w' !! j = None)
        <-> (exists d e, items w !! j = Some d /\ expiry d = Some e
                         /\ e <> 0 /\ e < clock env (ticks w)))
    /\ (forall j d,
          items w !! j = Some d ->
          expired (clock env (ticks w)) d = false ->
          items w' !! j = Some d)
    /\ (forall req j d,
          items w !! j = Some d ->
          expired (clock env (ticks w)) d = false ->
          items (snd (handle env req w)) !! j = Some d
          \/ (targets req j /\ name req = u16 "store"
              /\ is_Some (items (snd (handle env req w)) !! j))
          \/ (targets req j /\ name req = u16 "delete")).
Proof.
  intros env w w' Hrun.
  apply cleanExpiredValues_returns in Hrun. destruct Hrun as (Hit & _ & _).
  split; [|split].
  - intros j. rewrite Hit, swept_lookup. split.
    + intros [[d Hd] Hnone]. rewrite Hd in Hnone.
      destruct (expired (clock env (ticks w)) d) eqn:Ex; [|discriminate].
      apply expired_true_iff in Ex. destruct Ex as (e & He & H0 & Hlt).
      exists d, e. auto.
    + intros (d & e & Hd & He & H0 & Hlt). rewrite Hd. split; [eauto|].
      assert (Ex : expired (clock env (ticks w)) d = true)
        by (apply expired_true_iff; eauto).
      rewrite Ex. reflexivity.
  - intros j d Hd Hlive. rewrite Hit, swept_lookup, Hd, Hlive. reflexivity.
  - intros req j d Hd Hlive.
    destruct (targets_dec req j) as [Ht|Hnt];
      [|left; apply handle_keeps_untargeted; assumption].
    destruct Ht as [[Hs|Hdel] Harg]; [|right; right; split; [split|]; auto].
    right. left. split; [split; auto|]. split; [exact Hs|].
    rewrite handle_world.
    pose proof (preamble_keeps env w j d Hd Hlive) as H0.
    destruct (preamble env w) as [[[]|e] w0]; cbn [snd] in H0; [|eauto].
    destruct req as [nm args]. cbn [name] in Hs. subst nm.
    rewrite dispatch_store. apply store_case_present. eauto.
Qed.

Lemma sweep_removes_exactly_the_expired_witness :
  (forall j,
      (is_Some (items (world_of old_and_new) !! j)
       /\ items (snd (cleanExpiredValues (steady_env 1000)
                        (world_of old_and_new))) !! j = None)
      <-> (exists d e, items (world_of old_and_new) !! j = Some d
                       /\ expiry d = Some e /\ e <> 0
                       /\ e < clock (steady_env 1000)
                                (ticks (world_of old_and_new))))
  /\ (forall j d,
        items (world_of old_and_new) !! j = Some d ->
        expired (clock (steady_env 1000) (ticks (world_of old_and_new))) d
        = false ->
        items (snd (cleanExpiredValues (steady_env 1000)
                      (world_of old_and_new))) !! j = Some d)
  /\ (forall req j d,
        items (world_of old_and_new) !! j = Some d ->
        expired (clock (steady_env 1000) (ticks (world_of old_and_new))) d
        = false ->
        items (snd (handle (steady_env 1000) req (world_of old_and_new))) !! j
        = Some d
        \/ (targets req j /\ name req = u16 "store"
            /\ is_Some (items (snd (handle (steady_env 1000) req
                                      (world_of old_and_new))) !! j))
        \/ (targets req j /\ name req = u16 "delete")).
Proof.
  apply (sweep_removes_exactly_the_expired (steady_env 1000)
           (world_of old_and_new)
           (snd (cleanExpiredValues (steady_env 1000) (world_of old_and_new)))).
  vm_compute. reflexivity.
Defined.

(** On that state the sweep removes the expired record and keeps the
    other one. *)
Example sweep_old_and_new :
  items (snd (cleanExpiredValues (steady_env 1000) (world_of old_and_new)))
  = {[ u16 "new" := plain_record "fresh" ]}.
Proof. vm_compute. reflexivity. Qed.

(** * Further properties of the handler *)

(** ** Relations every run respects *)

Section Rel.

Variable R : World -> World -> Prop.
Hypothesis R_refl : forall w, R w w.
Hypothesis R_trans : forall w1 w2 w3, R w1 w2 -> R w2 w3 -> R w1 w3.

Lemma ret_rel {A} (a : A) : M_rel R (ret a).
Proof. intros w. apply R_refl. Qed.

Lemma throw_rel {A} (e : Exn) : M_rel R (@throw A e).
Proof. intros w. apply R_refl. Qed.

Lemma lift_rel {A} (o : Outcome A) : M_rel R (lift o).
Proof. intros w. apply R_refl. Qed.

(** The continuation only matters for the values [m] can return. *)
Lemma bind_rel {A B} (m : M A) (k : A -> M B) :
  M_rel R m ->
  (forall a, (exists w w1, m w = (Return a, w1)) -> M_rel R (k a)) ->
  M_rel R (bind m k).
Proof.
  intros Hm Hk w. unfold bind. specialize (Hm w).
  destruct (m w) as [[a|e] w1] eqn:E; cbn [snd] in *; [|exact Hm].
  eapply R_trans; [exact Hm | apply Hk; eauto].
Qed.

Lemma try_catch_rel {A} (m : M A) (h : Exn -> M A) :
  M_rel R m -> (forall e, M_rel R (h e)) -> M_rel R (try_catch m h).
Proof.
  intros Hm Hh w. unfold try_catch. specialize (Hm w).
  destruct (m w) as [[a|e] w1]; cbn [snd] in *; [exact Hm|].
  eapply R_trans; [exact Hm | apply Hh].
Qed.

Lemma for_of_rel {A} (xs : list A) (body : A -> M unit) :
  (forall x, M_rel R (body x)) -> M_rel R (for_of xs body).
Proof.
  intros Hb. induction xs as [|x xs IH]; cbn [for_of].
  - apply ret_rel.
  - apply bind_rel; [apply Hb | intros _ _; exact IH].
Qed.

Lemma map_all_rel {A B} (f : A -> M B) (xs : list A) :
  (forall x, M_rel R (f x)) -> M_rel R (map_all f xs).
Proof.
  intros Hf. induction xs as [|x xs IH]; cbn [map_all].
  - apply ret_rel.
  - intros w. specialize (Hf x w).
    destruct (f x w) as [o w1]. specialize (IH w1).
    destruct (map_all f xs w1) as [os w2]. cbn [snd] in *.
    eapply R_trans; [exact Hf | exact IH].
Qed.

Lemma destructure_rel (first : string) (args : option Args) :
  M_rel R (destructure first args).
Proof. destruct args; [apply ret_rel | apply throw_rel]. Qed.

Lemma rethrow_rel (e : Exn) : M_rel R (rethrow e).
Proof. destruct e; apply throw_rel. Qed.

Variable env : Env.

(** What the primitive steps do to the world. *)
Hypothesis R_io : forall w, R w (next_io w).
Hypothesis R_tick : forall w, R w (next_tick w).
Hypothesis R_read : forall w, R w (set_items (items w) (next_io w)).

Lemma storage_call_rel {A}
    (op : gmap (list N) StoredValue -> A * gmap (list N) StoredValue) :
  (forall w, R w (set_items (snd (op (items w))) (next_io w))) ->
  M_rel R (storage_call env op).
Proof.
  intros Hop w. unfold storage_call.
  destruct (fault env (io_calls w)); cbn [snd]; [apply R_io | apply Hop].
Qed.

Lemma Date_now_rel : M_rel R (Date_now env).
Proof. intros w. apply R_tick. Qed.

Lemma storage_getItem_rel (k : list N) : M_rel R (storage_getItem env k).
Proof. apply storage_call_rel. intros w. apply R_read. Qed.

Lemma storage_keys_rel : M_rel R (storage_keys env).
Proof. apply storage_call_rel. intros w. apply R_read. Qed.

Lemma retrieve_case_rel (args : option Args) : M_rel R (retrieve_case env args).
Proof.
  unfold retrieve_case.
  apply bind_rel; [apply destructure_rel | intros a _].
  apply bind_rel; [apply lift_rel | intros _ _].
  apply bind_rel; [apply lift_rel | intros _ _].
  apply bind_rel; [apply storage_getItem_rel | intros data _].
  destruct data as [d|]; [|apply throw_rel].
  apply bind_rel.
  { destruct (expiry d) as [e|]; [|apply ret_rel].
    destruct (negb (e =? 0)); [|apply ret_rel].
    apply bind_rel; [apply Date_now_rel | intros now _; apply ret_rel]. }
  intros gone _. destruct gone; [apply throw_rel | apply ret_rel].
Qed.

Lemma list_case_rel (args : option Args) : M_rel R (list_case env args).
Proof.
  unfold list_case.
  apply bind_rel; [apply destructure_rel | intros a _].
  apply bind_rel; [apply lift_rel | intros _ _].
  apply bind_rel; [apply storage_keys_rel | intros keys _].
  destruct (truthy (arg_includeMetadata a)); [|apply ret_rel].
  apply bind_rel; [|intros l _; apply ret_rel].
  apply map_all_rel. intros key. unfold read_item.
  apply bind_rel; [apply storage_getItem_rel | intros data _].
  destruct data; [apply ret_rel | apply throw_rel].
Qed.

(** The steps that write. *)
Hypothesis R_init : forall w, R w (set_initialized true w).
Hypothesis R_delete :
  forall w k, R w (set_items (delete k (items w)) (next_io w)).
Hypothesis R_insert :
  forall w k v, well_formed_key k ->
                R w (set_items (<[k := v]> (items w)) (next_io w)).

Lemma ensureInitialized_rel : M_rel R (ensureInitialized env).
Proof.
  intros w. unfold ensureInitialized.
  destruct (initialized w); cbn [negb]; [apply R_refl|].
  unfold bind, storage_init, storage_call.
  destruct (fault env (io_calls w)); cbn [fst snd]; [apply R_io|].
  eapply R_trans; [apply R_read | apply R_init].
Qed.

Lemma cleanExpiredValues_rel : M_rel R (cleanExpiredValues env).
Proof.
  unfold cleanExpiredValues.
  apply bind_rel; [apply storage_keys_rel | intros keys _].
  apply bind_rel; [apply Date_now_rel | intros now _].
  apply for_of_rel. intros key.
  apply bind_rel; [apply storage_getItem_rel | intros data _].
  destruct data as [d|]; [|apply ret_rel].
  destruct (expired now d); [|apply ret_rel].
  apply storage_call_rel. intros w. apply R_delete.
Qed.

Lemma delete_case_rel (args : option Args) : M_rel R (delete_case env args).
Proof.
  unfold delete_case.
  apply bind_rel; [apply destructure_rel | intros a _].
  apply bind_rel; [apply lift_rel | intros _ _].
  apply bind_rel; [apply lift_rel | intros _ _].
  apply bind_rel; [|intros _ _; apply ret_rel].
  apply storage_call_rel. intros w. apply R_delete.
Qed.

End Rel.

(** ** Storage keys *)

Lemma validateKey_Return_inv (v : JsValue) :
  validateKey v = Return tt ->
  exists s, v = VStr s /\ KEY_PATTERN_test s = true /\ js_length s <= 256.
Proof.
  unfold validateKey, MAX_KEY_LENGTH.
  destruct v as [| |b|n|s|]; cbn [truthy typeof_string negb orb str];
    rewrite ?orb_true_r, ?orb_false_r; try discriminate.
  destruct (negb (negb (js_length s =? 0))); [discriminate|].
  destruct (Z.gtb_spec (js_length s) 256); [discriminate|].
  destruct (KEY_PATTERN_test s) eqn:Et; cbn [negb]; [|discriminate].
  intros _. exists s. auto.
Qed.

Lemma KEY_PATTERN_test_forallb (s : list N) :
  KEY_PATTERN_test s = true <-> s <> [] /\ forallb key_char s = true.
Proof.
  destruct s as [|c s]; unfold KEY_PATTERN_test.
  - split; [discriminate | intros [H _]; congruence].
  - split; [intros H; split; [discriminate | exact H] | intros [_ H]; exact H].
Qed.

Lemma js_length_app (s t : list N) :
  js_length (s ++ t) = js_length s + js_length t.
Proof. unfold js_length. rewrite length_app. lia. Qed.

(** The storage key of validated arguments is well formed, and without
    a namespace it is the key itself. *)
Lemma storageKey_well_formed (ns key : JsValue) :
  validateKey key = Return tt ->
  validateNamespace ns = Return tt ->
  well_formed_key (storageKey ns key)
  /\ (ns = VUndefined -> VStr (storageKey ns key) = key)
  /\ (forall n, ns = VStr n ->
       storageKey ns key = n ++ u16 ":" ++ str key).
Proof.
  intros Hk Hn.
  apply validateKey_Return_inv in Hk. destruct Hk as (k & -> & Hkt & Hkl).
  destruct ns as [| |b|z|n|]; cbn [validateNamespace] in Hn;
    try (apply validateKey_Return_inv in Hn;
         destruct Hn as (n' & Hn' & _); discriminate).
  - unfold storageKey. cbn [truthy str].
    split; [split; [exact Hkt | lia]|]. split; [reflexivity | discriminate].
  - apply validateKey_Return_inv in Hn. destruct Hn as (n' & Hn' & Hnt & Hnl).
    injection Hn' as <-.
    assert (Hne : js_length n <> 0).
    { intros H0. apply js_length_nil_iff in H0. subst n. discriminate. }
    unfold storageKey. cbn [truthy str].
    apply Z.eqb_neq in Hne. rewrite Hne. cbn [negb].
    split; [|split; [discriminate | intros n0 Hn0; congruence]].
    split.
    + apply KEY_PATTERN_test_forallb in Hkt, Hnt.
      apply KEY_PATTERN_test_forallb. split.
      * destruct n; [tauto | discriminate].
      * rewrite !forallb_app. destruct Hkt as [_ ->], Hnt as [_ ->].
        reflexivity.
    + rewrite !js_length_app. change (js_length (u16 ":")) with 1. lia.
Qed.

(** ** Relations respected by the whole handler *)

Lemma store_case_rel (R : World -> World -> Prop) (env : Env)
    (args : option Args) :
  steps_respect R -> M_rel R (store_case env args).
Proof.
  intros (Hrefl & Htrans & Hio & Htick & Hread & Hinit & Hdel & Hins).
  unfold store_case.
  apply (bind_rel R Htrans); [apply destructure_rel; auto | intros a _].
  apply (bind_rel R Htrans); [apply lift_rel; auto | intros [] [w [w1 Hk]]].
  apply (bind_rel R Htrans); [apply lift_rel; auto | intros _ _].
  apply (bind_rel R Htrans); [apply lift_rel; auto | intros [] [w' [w1' Hn]]].
  apply (bind_rel R Htrans); [apply Date_now_rel; auto | intros ts _].
  apply bind_rel; auto.
  { destruct (arg_ttl a) as [ttl|]; [|apply ret_rel; auto].
    destruct (negb (ttl =? 0)); [|apply ret_rel; auto].
    apply (bind_rel R Htrans); [apply Date_now_rel; auto | intros now _].
    apply ret_rel; auto. }
  intros ex _. apply (bind_rel R Htrans); [|intros _ _; apply ret_rel; auto].
  apply storage_call_rel; auto. intros w0. cbn [snd]. apply Hins.
  unfold lift in Hk, Hn. injection Hk as Hk _. injection Hn as Hn _.
  apply storageKey_well_formed; assumption.
Qed.

Lemma dispatch_rel (R : World -> World -> Prop) (env : Env) (req : Request) :
  steps_respect R -> M_rel R (dispatch env req).
Proof.
  intros HR. pose proof HR as (Hrefl & Htrans & Hio & Htick & Hread & Hinit & Hdel & Hins).
  unfold dispatch.
  case_bool_decide; [apply store_case_rel; exact HR|].
  case_bool_decide; [apply retrieve_case_rel; auto|].
  case_bool_decide; [apply list_case_rel; auto|].
  case_bool_decide; [apply delete_case_rel; auto|].
  apply throw_rel; auto.
Qed.

(** Whatever the request, the clock and the storage do, the world a call
    leaves is related to the one it started from by every relation the
    primitive steps respect. *)
Lemma handle_rel (R : World -> World -> Prop) (env : Env) (req : Request) :
  steps_respect R -> M_rel R (handle env req).
Proof.
  intros HR. pose proof HR as (Hrefl & Htrans & Hio & Htick & Hread & Hinit & Hdel & Hins).
  unfold handle.
  apply (bind_rel R Htrans); [apply ensureInitialized_rel; auto | intros _ _].
  apply (bind_rel R Htrans); [apply cleanExpiredValues_rel; auto | intros _ _].
  apply (try_catch_rel R Htrans); [apply dispatch_rel; exact HR|].
  intros e. apply rethrow_rel; auto.
Qed.

Lemma run_all_rel (R : World -> World -> Prop) (env : Env)
    (reqs : list Request) (w : World) :
  steps_respect R -> R w (run_all env reqs w).
Proof.
  intros HR. pose proof HR as (Hrefl & Htrans & _).
  unfold run_all. revert w. induction reqs as [|req reqs IH]; intros w.
  - apply Hrefl.
  - cbn [fold_left]. eapply Htrans; [apply (handle_rel R env req HR)|apply IH].
Qed.

(** ** Reads do not write *)

Lemma items_same_refl (w : World) : items w = items w.
Proof. reflexivity. Qed.

Lemma dispatch_read_only (env : Env) (req : Request) :
  name req <> u16 "store" ->
  name req <> u16 "delete" ->
  M_rel (fun w w' => items w' = items w) (dispatch env req).
Proof.
  intros Hs Hd. unfold dispatch.
  assert (Htrans : forall w1 w2 w3 : World,
             items w2 = items w1 -> items w3 = items w2 -> items w3 = items w1)
    by (intros; congruence).
  case_bool_decide; [contradiction|].
  case_bool_decide; [apply retrieve_case_rel; auto|].
  case_bool_decide; [apply list_case_rel; auto|].
  case_bool_decide; [contradiction|].
  apply throw_rel; auto.
Qed.

(** X1. A call that is neither a [store] nor a [delete] (a [retrieve], a
    [list], an unknown tool) leaves the mapping exactly as the steps
    before the [try] left it, whether it succeeds or fails and whatever
    the storage does. *)
Theorem reads_leave_storage_as_swept :
  forall (env : Env) (req : Request) (w : World),
    name req <> u16 "store" ->
    name req <> u16 "delete" ->
    items (snd (handle env req w)) = items (snd (preamble env w)).
Proof.
  intros env req w Hs Hd. rewrite handle_world.
  destruct (preamble env w) as [[[]|e] w0]; cbn [snd]; [|reflexivity].
  apply (dispatch_read_only env req Hs Hd w0).
Qed.

Lemma reads_leave_storage_as_swept_witness :
  items (snd (handle (failing_env 2 "EIO: read error")
                (mkRequest (u16 "list") (Some list_ns_args))
                (world_of old_and_new)))
  = items (snd (preamble (failing_env 2 "EIO: read error")
                  (world_of old_and_new))).
Proof.
  apply (reads_leave_storage_as_swept (failing_env 2 "EIO: read error")
           (mkRequest (u16 "list") (Some list_ns_args)) (world_of old_and_new));
    vm_compute; discriminate.
Defined.

(** ** Lazy initialization *)

Lemma initialized_steps :
  steps_respect (fun w w' => initialized w = true -> initialized w' = true).
Proof. unfold steps_respect. repeat split; auto. Qed.

(** X2. The storage is initialized lazily and once: on an initialized
    server [ensureInitialized] does nothing (no storage call); when it
    returns the flag is set; when [storage.init] is rejected the flag
    stays unset, so that the next call tries again; and once the flag is
    set it stays set through any sequence of calls. *)
Theorem initialization_is_lazy_and_sticky :
  forall (env : Env) (w : World),
    (initialized w = true -> ensureInitialized env w = (Return tt, w))
    /\ (forall w', ensureInitialized env w = (Return tt, w') ->
                   initialized w' = true)
    /\ (forall e w', ensureInitialized env w = (Throw e, w') ->
                     initialized w = false /\ initialized w' = false
                     /\ items w' = items w)
    /\ (forall reqs, initialized w = true ->
                     initialized (run_all env reqs w) = true).
Proof.
  intros env w. repeat split.
  - intros Hi. unfold ensureInitialized. rewrite Hi. reflexivity.
  - unfold ensureInitialized, bind, storage_init, storage_call.
    destruct (initialized w) eqn:Ei; cbn [negb].
    + intros w' H. injection H as <-. exact Ei.
    + destruct (fault env (io_calls w)); [discriminate|].
      intros w' H. injection H as <-. reflexivity.
  - revert H. unfold ensureInitialized, bind, storage_init, storage_call.
    destruct (initialized w); cbn [negb]; [discriminate | reflexivity].
  - revert H. unfold ensureInitialized, bind, storage_init, storage_call.
    destruct (initialized w) eqn:Ei; cbn [negb]; [discriminate|].
    destruct (fault env (io_calls w)); [|discriminate].
    intros H. injection H as _ <-. exact Ei.
  - revert H. unfold ensureInitialized, bind, storage_init, storage_call.
    destruct (initialized w) eqn:Ei; cbn [negb]; [discriminate|].
    destruct (fault env (io_calls w)); [|discriminate].
    intros H. injection H as _ <-. reflexivity.
  - intros reqs. apply (run_all_rel _ env reqs w initialized_steps).
Qed.

(** ** Well-formed storage keys *)

Lemma keys_steps :
  steps_respect (fun w w' =>
    forall j, is_Some (items w' !! j) ->
              is_Some (items w !! j) \/ well_formed_key j).
Proof.
  unfold steps_respect. repeat split; auto.
  - intros w1 w2 w3 H12 H23 j Hj.
    destruct (H23 j Hj) as [H2|H2]; [apply H12; exact H2 | right; exact H2].
  - intros w k j. cbn [items set_items]. rewrite lookup_delete.
    case_decide; [intros [x Hx]; discriminate | auto].
  - intros w k v Hk j. cbn [items set_items]. rewrite lookup_insert.
    case_decide; [subst; auto | auto].
Qed.

(** X3. Every key the server writes is well formed: if all the keys of
    the mapping are non-empty strings over [[A-Za-z0-9-_:.]] of length at
    most 513, they still are after any sequence of calls, whatever the
    requests, the clock and the storage do. *)
Theorem storage_keys_stay_well_formed :
  forall (env : Env) (reqs : list Request) (w : World),
    keys_well_formed w -> keys_well_formed (run_all env reqs w).
Proof.
  intros env reqs w Hw j Hj.
  destruct (run_all_rel _ env reqs w keys_steps j Hj) as [H|H];
    [apply Hw; exact H | exact H].
Qed.

Lemma storage_keys_stay_well_formed_witness :
  keys_well_formed
    (run_all (steady_env 1000)
       [store_request "a" "1" "proj" None; bad_key_store; list_all]
       (world_of ∅)).
Proof.
  apply (storage_keys_stay_well_formed (steady_env 1000)
           [store_request "a" "1" "proj" None; bad_key_store; list_all]
           (world_of ∅)).
  intros j [x Hx]. cbn in Hx. rewrite lookup_empty in Hx. discriminate.
Defined.

(** ** What can be thrown *)

Section Throws.

Variable P : Exn -> Prop.

Lemma ret_throws {A} (a : A) : M_throws P (ret a).
Proof. intros w e w' H. discriminate. Qed.

Lemma throw_throws {A} (e : Exn) : P e -> M_throws P (@throw A e).
Proof. intros He w e' w' H. injection H as <- _. exact He. Qed.

Lemma lift_throws {A} (o : Outcome A) :
  (forall e, o = Throw e -> P e) -> M_throws P (lift o).
Proof. intros Ho w e w' H. injection H as H _. apply Ho. exact H. Qed.

Lemma bind_throws {A B} (m : M A) (k : A -> M B) :
  M_throws P m -> (forall a, M_throws P (k a)) -> M_throws P (bind m k).
Proof.
  intros Hm Hk w e w'. unfold bind.
  destruct (m w) as [[a|e0] w1] eqn:E.
  - apply Hk.
  - intros H. injection H as <- _. apply (Hm w e0 w1 E).
Qed.

Lemma map_all_throws {A B} (f : A -> M B) (xs : list A) :
  (forall x, M_throws P (f x)) -> M_throws P (map_all f xs).
Proof.
  intros Hf. induction xs as [|x xs IH]; cbn [map_all].
  - apply ret_throws.
  - intros w e w'. specialize (Hf x w).
    destruct (f x w) as [o w1] eqn:Ef. specialize (IH w1).
    destruct (map_all f xs w1) as [os w2] eqn:Em.
    destruct o as [y|e1].
    + destruct os as [ys|e2]; [discriminate|].
      intros H. injection H as <- _. eapply IH. reflexivity.
    + intros H. injection H as <- _. eapply Hf. reflexivity.
Qed.

Variable env : Env.
Hypothesis P_js : forall n m, P (JsError n m).

Lemma storage_call_throws {A}
    (op : gmap (list N) StoredValue -> A * gmap (list N) StoredValue) :
  M_throws P (storage_call env op).
Proof.
  intros w e w'. unfold storage_call.
  destruct (fault env (io_calls w)); [|discriminate].
  intros H. injection H as <- _. apply P_js.
Qed.

Lemma Date_now_throws : M_throws P (Date_now env).
Proof. intros w e w' H. discriminate. Qed.

Lemma destructure_throws (first : string) (args : option Args) :
  M_throws P (destructure first args).
Proof. destruct args; [apply ret_throws | apply throw_throws, P_js]. Qed.

Hypothesis P_invalid : forall m, P (McpError InvalidParams m).

Lemma validateKey_throws (v : JsValue) : M_throws P (lift (validateKey v)).
Proof.
  apply lift_throws. intros e He.
  destruct (validateKey_cases v) as [H|[m H]]; rewrite H in He;
    [discriminate | injection He as <-; apply P_invalid].
Qed.

Lemma validateValue_throws (v : JsValue) : M_throws P (lift (validateValue v)).
Proof.
  apply lift_throws. intros e He.
  destruct (validateValue_cases v) as [H|[m H]]; rewrite H in He;
    [discriminate | injection He as <-; apply P_invalid].
Qed.

Lemma validateNamespace_throws (v : JsValue) :
  M_throws P (lift (validateNamespace v)).
Proof.
  apply lift_throws. intros e He.
  destruct (validateNamespace_cases v) as [H|[m H]]; rewrite H in He;
    [discriminate | injection He as <-; apply P_invalid].
Qed.

Lemma store_case_throws (args : option Args) : M_throws P (store_case env args).
Proof.
  unfold store_case.
  apply bind_throws; [apply destructure_throws | intros a].
  apply bind_throws; [apply validateKey_throws | intros _].
  apply bind_throws; [apply validateValue_throws | intros _].
  apply bind_throws; [apply validateNamespace_throws | intros _].
  apply bind_throws; [apply Date_now_throws | intros ts].
  apply bind_throws.
  { destruct (arg_ttl a) as [ttl|]; [|apply ret_throws].
    destruct (negb (ttl =? 0)); [|apply ret_throws].
    apply bind_throws; [apply Date_now_throws | intros now; apply ret_throws]. }
  intros ex. apply bind_throws; [apply storage_call_throws|].
  intros _. apply ret_throws.
Qed.

Lemma delete_case_throws (args : option Args) :
  M_throws P (delete_case env args).
Proof.
  unfold delete_case.
  apply bind_throws; [apply destructure_throws | intros a].
  apply bind_throws; [apply validateKey_throws | intros _].
  apply bind_throws; [apply validateNamespace_throws | intros _].
  apply bind_throws; [apply storage_call_throws|].
  intros _. apply ret_throws.
Qed.

Lemma list_case_throws (args : option Args) : M_throws P (list_case env args).
Proof.
  unfold list_case.
  apply bind_throws; [apply destructure_throws | intros a].
  apply bind_throws; [apply validateNamespace_throws | intros _].
  apply bind_throws; [apply storage_call_throws | intros keys].
  destruct (truthy (arg_includeMetadata a)); [|apply ret_throws].
  apply bind_throws; [|intros l; apply ret_throws].
  apply map_all_throws. intros key. unfold read_item.
  apply bind_throws; [apply storage_call_throws | intros data].
  destruct data; [apply ret_throws | apply throw_throws, P_js].
Qed.

Hypothesis P_not_found : forall m, P (McpError InvalidRequest m).

Lemma retrieve_case_throws (args : option Args) :
  M_throws P (retrieve_case env args).
Proof.
  unfold retrieve_case.
  apply bind_throws; [apply destructure_throws | intros a].
  apply bind_throws; [apply validateKey_throws | intros _].
  apply bind_throws; [apply validateNamespace_throws | intros _].
  apply bind_throws; [apply storage_call_throws | intros data].
  destruct data as [d|]; [|apply throw_throws, P_not_found].
  apply bind_throws.
  { destruct (expiry d) as [e|]; [|apply ret_throws].
    destruct (negb (e =? 0)); [|apply ret_throws].
    apply bind_throws; [apply Date_now_throws | intros now; apply ret_throws]. }
  intros gone. destruct gone;
    [apply throw_throws, P_not_found | apply ret_throws].
Qed.

End Throws.

(** What the [catch] clause makes of a thrown value. *)
Lemma try_catch_rethrow_Throw (m : M Content) (w w' : World) (e : Exn) :
  try_catch m rethrow w = (Throw e, w') ->
  exists e0, m w = (Throw e0, w')
             /\ e = match e0 with
                    | McpError _ _ => e0
                    | JsError n msg => McpError InternalError (Error_toString n msg)
                    end.
Proof.
  unfold try_catch. destruct (m w) as [[c|[code msg|n msg]] w1];
    cbn [rethrow]; unfold throw; intros H; inversion H; subst; eauto.
Qed.

Lemma tool_names_eq :
  tool_names = [u16 "store"; u16 "retrieve"; u16 "list"; u16 "delete"].
Proof. reflexivity. Qed.

Lemma dispatch_unknown (env : Env) (req : Request) :
  ~ In (name req) tool_names ->
  dispatch env req =
  throw (McpError MethodNotFound (u16 "Unknown tool: " ++ name req)).
Proof.
  rewrite tool_names_eq. cbn [In]. intros Hn. unfold dispatch.
  repeat (case_bool_decide; [exfalso; apply Hn; auto 6|]).
  reflexivity.
Qed.

(** X4. The tools the server advertises are exactly the ones it serves:
    a request whose name is not one of the names answered to
    [ListTools] fails with [MethodNotFound] and the message
    [Unknown tool: <name>], without looking at its arguments and without
    touching the storage; a request for an advertised tool never fails
    with [MethodNotFound]. *)
Theorem advertised_tools_are_the_served_ones :
  forall (env : Env) (req : Request) (w w1 : World),
    preamble env w = (Return tt, w1) ->
    (~ In (name req) tool_names ->
     handle env req w
     = (Throw (McpError MethodNotFound (u16 "Unknown tool: " ++ name req)), w1))
    /\ (In (name req) tool_names ->
        forall e w', handle env req w = (Throw e, w') ->
                     code_of e <> Some MethodNotFound).
Proof.
  intros env req w w1 Hpre. split.
  - intros Hn. rewrite handle_unfold, Hpre, (dispatch_unknown env req Hn).
    reflexivity.
  - rewrite tool_names_eq. cbn [In]. intros Hin e w'.
    rewrite handle_unfold, Hpre. intros H.
    apply try_catch_rethrow_Throw in H. destruct H as (e0 & Hrun & ->).
    set (P := fun e : Exn =>
                match e with McpError MethodNotFound _ => False | _ => True end).
    assert (HP : P e0).
    { revert Hrun. unfold dispatch.
      destruct Hin as [Hs|[Hr|[Hl|[Hd|[]]]]]; rewrite <- ?Hs, <- ?Hr, <- ?Hl, <- ?Hd;
        cbn [bool_decide]; repeat case_bool_decide; try congruence;
        first [ apply (store_case_throws P env); now cbn
              | apply (retrieve_case_throws P env); now cbn
              | apply (list_case_throws P env); now cbn
              | apply (delete_case_throws P env); now cbn ]. }
    destruct e0 as [[] msg|n msg]; cbn in *; try discriminate; tauto.
Qed.

Lemma advertised_tools_are_the_served_ones_witness :
  (~ In (u16 "purge") tool_names ->
   handle (steady_env 1000) (mkRequest (u16 "purge") None) (world_of three_keys)
   = (Throw (McpError MethodNotFound (u16 "Unknown tool: " ++ u16 "purge")),
      snd (preamble (steady_env 1000) (world_of three_keys))))
  /\ (In (u16 "purge") tool_names ->
      forall e w',
        handle (steady_env 1000) (mkRequest (u16 "purge") None)
          (world_of three_keys) = (Throw e, w') ->
        code_of e <> Some MethodNotFound).
Proof.
  apply (advertised_tools_are_the_served_ones (steady_env 1000)
           (mkRequest (u16 "purge") None) (world_of three_keys)
           (snd (preamble (steady_env 1000) (world_of three_keys)))).
  vm_compute. reflexivity.
Defined.

(** Two different names for one request, or a served name that is not
    advertised, are absurd. *)
Ltac name_clash :=
  match goal with
  | H1 : name ?r = _, H2 : name ?r = _ |- _ =>
      rewrite H1 in H2; vm_compute in H2; discriminate H2
  | H1 : name ?r = _, H2 : ~ In (name ?r) tool_names |- _ =>
      exfalso; apply H2; rewrite tool_names_eq, H1; cbn [In]; auto 6
  end.

(** X5. The error kinds of each tool.  Once the steps before the [try]
    have returned, whatever a call throws is an [McpError]: for [store],
    [list] and [delete] its code is [InvalidParams] or [InternalError],
    for [retrieve] it may also be [InvalidRequest], and for any other
    name it is [MethodNotFound]; this holds whatever the storage does. *)
Theorem error_kinds_of_each_tool :
  forall (env : Env) (req : Request) (w w1 w' : World) (e : Exn),
    preamble env w = (Return tt, w1) ->
    handle env req w = (Throw e, w') ->
    exists c m,
      e = McpError c m
      /\ (name req = u16 "store" \/ name req = u16 "list"
          \/ name req = u16 "delete" ->
          c = InvalidParams \/ c = InternalError)
      /\ (name req = u16 "retrieve" ->
          c = InvalidParams \/ c = InvalidRequest \/ c = InternalError)
      /\ (~ In (name req) tool_names -> c = MethodNotFound).
Proof.
  intros env req w w1 w' e Hpre. rewrite handle_unfold, Hpre. intros H.
  apply try_catch_rethrow_Throw in H. destruct H as (e0 & Hrun & ->).
  set (P2 := fun e : Exn =>
               match e with
               | McpError InvalidParams _ | JsError _ _ => True
               | _ => False
               end).
  set (P3 := fun e : Exn =>
               match e with
               | McpError InvalidParams _ | McpError InvalidRequest _
               | JsError _ _ => True
               | _ => False
               end).
  destruct (decide (In (name req) tool_names)) as [Hin|Hout].
  - rewrite tool_names_eq in Hin. cbn [In] in Hin.
    assert (Hcase :
      (name req = u16 "retrieve" /\ P3 e0)
      \/ ((name req = u16 "store" \/ name req = u16 "list"
           \/ name req = u16 "delete") /\ P2 e0)).
    { destruct req as [nm args]. cbn [name] in *.
      destruct Hin as [Hs|[Hr|[Hl|[Hd|[]]]]]; subst nm.
      - rewrite dispatch_store in Hrun. right. split; [auto|].
        apply (store_case_throws P2 env) in Hrun; now cbn.
      - rewrite dispatch_retrieve in Hrun. left. split; [reflexivity|].
        apply (retrieve_case_throws P3 env) in Hrun; now cbn.
      - rewrite dispatch_list in Hrun. right. split; [auto|].
        apply (list_case_throws P2 env) in Hrun; now cbn.
      - rewrite dispatch_delete in Hrun. right. split; [auto|].
        apply (delete_case_throws P2 env) in Hrun; now cbn. }
    destruct Hcase as [[Hr HP]|[Hn HP]];
      destruct e0 as [[] msg|n msg]; cbn in HP; try contradiction;
      (eexists _, _; split; [reflexivity|]; split; [|split]); intros;
      try (destruct Hn as [Hn|[Hn|Hn]]);
      try match goal with
          | H : _ \/ _ \/ _ |- _ => destruct H as [H|[H|H]]
          end;
      first [ solve [auto] | name_clash ].
  - rewrite (dispatch_unknown env req Hout) in Hrun.
    unfold throw in Hrun. injection Hrun as <- _.
    eexists _, _. split; [reflexivity|].
    (split; [|split]); intros;
      try match goal with
          | H : _ \/ _ \/ _ |- _ => destruct H as [H|[H|H]]
          end;
      first [ solve [auto] | name_clash ].
Qed.

Lemma error_kinds_of_each_tool_witness :
  exists c m,
    McpError InternalError (u16 "Error: ENOSPC: no space left on device")
    = McpError c m
    /\ (name (store_request "a" "1" "proj" None) = u16 "store"
        \/ name (store_request "a" "1" "proj" None) = u16 "list"
        \/ name (store_request "a" "1" "proj" None) = u16 "delete" ->
        c = InvalidParams \/ c = InternalError)
    /\ (name (store_request "a" "1" "proj" None) = u16 "retrieve" ->
        c = InvalidParams \/ c = InvalidRequest \/ c = InternalError)
    /\ (~ In (name (store_request "a" "1" "proj" None)) tool_names ->
        c = MethodNotFound).
Proof.
  apply (error_kinds_of_each_tool
           (failing_env 1 "ENOSPC: no space left on device")
           (store_request "a" "1" "proj" None) (world_of ∅)
           (snd (preamble (failing_env 1 "ENOSPC: no space left on device")
                   (world_of ∅)))
           (snd (handle (failing_env 1 "ENOSPC: no space left on device")
                   (store_request "a" "1" "proj" None) (world_of ∅))));
    vm_compute; reflexivity.
Defined.





(** X7. A call of one of the four tools that carries no [arguments]
    fails with [InternalError] (the [TypeError] of the destructuring,
    wrapped by the [catch]); it validates nothing and leaves the world as
    the steps before the [try] left it. *)
Theorem missing_arguments_are_an_internal_error :
  forall (env : Env) (nm : list N) (w w1 : World),
    preamble env w = (Return tt, w1) ->
    In nm tool_names ->
    exists m,
      handle env (mkRequest nm None) w = (Throw (McpError InternalError m), w1)
      /\ startsWith m (u16 "TypeError: ") = true.
Proof.
  intros env nm w w1 Hpre Hin. rewrite handle_unfold, Hpre.
  rewrite tool_names_eq in Hin. cbn [In] in Hin.
  destruct Hin as [Hs|[Hr|[Hl|[Hd|[]]]]]; subst nm;
    eexists; (split; [reflexivity|]); reflexivity.
Qed.

Lemma missing_arguments_are_an_internal_error_witness :
  exists m,
    handle (steady_env 1000) (mkRequest (u16 "store") None) (world_of three_keys)
    = (Throw (McpError InternalError m),
       snd (preamble (steady_env 1000) (world_of three_keys)))
    /\ startsWith m (u16 "TypeError: ") = true.
Proof.
  apply (missing_arguments_are_an_internal_error (steady_env 1000)
           (u16 "store") (world_of three_keys)
           (snd (preamble (steady_env 1000) (world_of three_keys)))).
  - vm_compute. reflexivity.
  - left. reflexivity.
Defined.

(** ** The input schemas and the validators *)

Lemma undefined_is_no_key : validateKey VUndefined <> Return tt.
Proof. discriminate. Qed.

Lemma undefined_is_no_value : validateValue VUndefined <> Return tt.
Proof. discriminate. Qed.

(** X8. The handler enforces what the input schemas declare as
    [required]: for every advertised tool and every property its schema
    requires, a call that leaves that property out fails with
    [InvalidParams], and writes nothing. *)
Theorem required_properties_are_enforced :
  forall (env : Env) (w w1 : World) (t : Tool) (p : string) (a : Args),
    preamble env w = (Return tt, w1) ->
    In t listTools ->
    In p (tool_required t) ->
    arg_lookup a p = VUndefined ->
    exists m,
      handle env (mkRequest (u16 (tool_name t)) (Some a)) w
      = (Throw (McpError InvalidParams m), w1).
Proof.
  intros env w w1 t p a Hpre Ht Hp Hundef.
  unfold listTools in Ht. cbn [In] in Ht.
  destruct Ht as [<-|[<-|[<-|[<-|[]]]]]; cbn [tool_required In] in Hp;
    cbn [tool_name]; rewrite handle_unfold, Hpre.
  - assert (Hbad : validateKey (arg_key a) <> Return tt
                   \/ validateValue (arg_value a) <> Return tt
                   \/ validateNamespace (arg_namespace a) <> Return tt).
    { destruct Hp as [<-|[<-|[]]]; vm_compute in Hundef.
      - left. change (arg_key a = VUndefined) in Hundef. rewrite Hundef.
        exact undefined_is_no_key.
      - right. left. change (arg_value a = VUndefined) in Hundef.
        rewrite Hundef. exact undefined_is_no_value. }
    destruct (store_case_invalid env a w1 Hbad) as [m Hm]. exists m.
    rewrite dispatch_store. apply try_catch_rethrow_McpError. exact Hm.
  - assert (Hbad : validateKey (arg_key a) <> Return tt
                   \/ validateNamespace (arg_namespace a) <> Return tt).
    { destruct Hp as [<-|[]]. vm_compute in Hundef.
      left. change (arg_key a = VUndefined) in Hundef. rewrite Hundef.
      exact undefined_is_no_key. }
    destruct (retrieve_case_invalid env a w1 Hbad) as [m Hm]. exists m.
    rewrite dispatch_retrieve. apply try_catch_rethrow_McpError. exact Hm.
  - destruct Hp.
  - assert (Hbad : validateKey (arg_key a) <> Return tt
                   \/ validateNamespace (arg_namespace a) <> Return tt).
    { destruct Hp as [<-|[]]. vm_compute in Hundef.
      left. change (arg_key a = VUndefined) in Hundef. rewrite Hundef.
      exact undefined_is_no_key. }
    destruct (delete_case_invalid env a w1 Hbad) as [m Hm]. exists m.
    rewrite dispatch_delete. apply try_catch_rethrow_McpError. exact Hm.
Qed.

Lemma required_properties_are_enforced_witness :
  exists m,
    handle (steady_env 1000)
      (mkRequest (u16 "retrieve")
         (Some (mkArgs VUndefined VUndefined (VStr (u16 "proj")) None VUndefined)))
      (world_of three_keys)
    = (Throw (McpError InvalidParams m),
       snd (preamble (steady_env 1000) (world_of three_keys))).
Proof.
  apply (required_properties_are_enforced (steady_env 1000)
           (world_of three_keys)
           (snd (preamble (steady_env 1000) (world_of three_keys)))
           (mkTool "retrieve" "Retrieve a value from memory bank"
              [ mkProperty "key" "string" "Key to retrieve the value for";
                mkProperty "namespace" "string"
                  "Optional namespace to retrieve from" ]
              [ "key" ]%string)
           "key"
           (mkArgs VUndefined VUndefined (VStr (u16 "proj")) None VUndefined)).
  - vm_compute. reflexivity.
  - right. left. reflexivity.
  - left. reflexivity.
  - reflexivity.
Defined.

(** X9. Validation is in the order key, value, namespace, and the first
    check that fails decides the error: a [store] surfaces the error of
    [validateKey] whatever the value and the namespace are, the error of
    [validateValue] only for a valid key, and the error of
    [validateNamespace] only for a valid key and value; [retrieve] and
    [delete] check the key before the namespace. *)
Theorem first_failing_validator_decides :
  forall (env : Env) (w w1 : World) (a : Args) (e : Exn),
    preamble env w = (Return tt, w1) ->
    (validateKey (arg_key a) = Throw e ->
     handle env (mkRequest (u16 "store") (Some a)) w = (Throw e, w1)
     /\ handle env (mkRequest (u16 "retrieve") (Some a)) w = (Throw e, w1)
     /\ handle env (mkRequest (u16 "delete") (Some a)) w = (Throw e, w1))
    /\ (validateKey (arg_key a) = Return tt ->
        validateValue (arg_value a) = Throw e ->
        handle env (mkRequest (u16 "store") (Some a)) w = (Throw e, w1))
    /\ (validateKey (arg_key a) = Return tt ->
        validateNamespace (arg_namespace a) = Throw e ->
        (validateValue (arg_value a) = Return tt ->
         handle env (mkRequest (u16 "store") (Some a)) w = (Throw e, w1))
        /\ handle env (mkRequest (u16 "retrieve") (Some a)) w = (Throw e, w1)
        /\ handle env (mkRequest (u16 "delete") (Some a)) w = (Throw e, w1)).
Proof.
  intros env w w1 a e Hpre.
  assert (Hmcp : forall v, validateKey v = Throw e -> exists m, e = McpError InvalidParams m).
  { intros v Hv. destruct (validateKey_cases v) as [H|[m H]];
      rewrite H in Hv; [discriminate | injection Hv as <-; eauto]. }
  assert (Hmcpv : validateValue (arg_value a) = Throw e ->
                  exists m, e = McpError InvalidParams m).
  { intros Hv. destruct (validateValue_cases (arg_value a)) as [H|[m H]];
      rewrite H in Hv; [discriminate | injection Hv as <-; eauto]. }
  assert (Hmcpn : validateNamespace (arg_namespace a) = Throw e ->
                  exists m, e = McpError InvalidParams m).
  { intros Hv. destruct (validateNamespace_cases (arg_namespace a)) as [H|[m H]];
      rewrite H in Hv; [discriminate | injection Hv as <-; eauto]. }
  rewrite !handle_unfold, Hpre.
  rewrite dispatch_store, dispatch_retrieve, dispatch_delete.
  split; [|split].
  - intros Hk. destruct (Hmcp _ Hk) as [m ->].
    repeat split; apply try_catch_rethrow_McpError;
      unfold store_case, retrieve_case, delete_case, destructure, bind, lift, ret;
      rewrite Hk; reflexivity.
  - intros Hk Hv. destruct (Hmcpv Hv) as [m ->].
    apply try_catch_rethrow_McpError.
    unfold store_case, destructure, bind, lift, ret. rewrite Hk, Hv. reflexivity.
  - intros Hk Hn. destruct (Hmcpn Hn) as [m ->].
    split; [intros Hv|split]; apply try_catch_rethrow_McpError;
      unfold store_case, retrieve_case, delete_case, destructure, bind, lift, ret;
      rewrite Hk, ?Hv, Hn; reflexivity.
Qed.

Lemma first_failing_validator_decides_witness :
  handle (steady_env 1000)
    (mkRequest (u16 "store")
       (Some (mkArgs (VStr (u16 "bad key")) (VNum 7) (VStr []) None VUndefined)))
    (world_of three_keys)
  = (Throw (McpError InvalidParams
              (u16 "Key must contain only alphanumeric characters, hyphens, underscores, dots, and colons")),
     snd (preamble (steady_env 1000) (world_of three_keys))).
Proof.
  refine (proj1 (proj1
    (first_failing_validator_decides (steady_env 1000) (world_of three_keys)
       (snd (preamble (steady_env 1000) (world_of three_keys)))
       (mkArgs (VStr (u16 "bad key")) (VNum 7) (VStr []) None VUndefined)
       (McpError InvalidParams
          (u16 "Key must contain only alphanumeric characters, hyphens, underscores, dots, and colons"))
       _) _)).
  - vm_compute. reflexivity.
  - vm_compute. reflexivity.
Defined.

(** ** How the operations compose *)

Section Compose.

Variable env : Env.
Hypothesis Hff : fault_free env.


(** What [retrieve] answers, in terms of the world the call starts from. *)
Lemma retrieve_valid_ff (w : World) (b : Args) :
  validateKey (arg_key b) = Return tt ->
  validateNamespace (arg_namespace b) = Return tt ->
  exists w',
    handle env (mkRequest (u16 "retrieve") (Some b)) w
    = (match swept (clock env (ticks w)) (items w)
               !! storageKey (arg_namespace b) (arg_key b) with
       | None => Throw (not_found b)
       | Some d =>
           if expired (clock env (S (ticks w))) d then Throw (not_found b)
           else Return (Text (value d))
       end, w').
Proof.
  intros Hk Hn.
  destruct (preamble_ff env Hff w) as (w0 & Hpre & Hit0 & Ht0).
  destruct (retrieve_case_ff env Hff b w0 Hk Hn) as (w' & Hre & _).
  exists w'. rewrite handle_unfold, Hpre, dispatch_retrieve.
  rewrite Hit0, Ht0 in Hre.
  unfold try_catch. rewrite Hre.
  destruct (swept (clock env (ticks w)) (items w)
              !! storageKey (arg_namespace b) (arg_key b)) as [d|];
    [destruct (expired (clock env (S (ticks w))) d)|]; reflexivity.
Qed.

Lemma valid_value_is_string (v : JsValue) :
  validateValue v = Return tt -> exists s, v = VStr s.
Proof.
  intros H. apply validateValue_ok_iff in H. destruct H as [H _].
  destruct v; try discriminate. eauto.
Qed.

(** A record without expiry, stored under a storage key, is what any
    later [retrieve] composing to the same storage key returns. *)
Lemma retrieve_after_store (w : World) (a b : Args) :
  validateKey (arg_key a) = Return tt ->
  validateValue (arg_value a) = Return tt ->
  validateNamespace (arg_namespace a) = Return tt ->
  arg_ttl a = None ->
  validateKey (arg_key b) = Return tt ->
  validateNamespace (arg_namespace b) = Return tt ->
  storageKey (arg_namespace b) (arg_key b)
  = storageKey (arg_namespace a) (arg_key a) ->
  exists (v : list N) (w1 w2 : World),
    arg_value a = VStr v
    /\ handle env (mkRequest (u16 "store") (Some a)) w
       = (Return (store_ack a), w1)
    /\ items w1 !! storageKey (arg_namespace a) (arg_key a)
       = Some (mkStoredValue v (clock env (S (ticks w))) None)
    /\ handle env (mkRequest (u16 "retrieve") (Some b)) w1
       = (Return (Text v), w2).
Proof.
  intros Hk Hv Hn Httl Hkb Hnb Hsk.
  destruct (valid_value_is_string _ Hv) as [v Hval].
  destruct (store_valid_ff env w a Hff Hk Hv Hn) as (w1 & Hst & Hit1).
  destruct (retrieve_valid_ff w1 b Hkb Hnb) as (w2 & Hre).
  assert (Hrec : items w1 !! storageKey (arg_namespace a) (arg_key a)
                 = Some (mkStoredValue v (clock env (S (ticks w))) None)).
  { rewrite Hit1, lookup_insert_eq. unfold stored_record.
    rewrite Httl, Hval. reflexivity. }
  exists v, w1, w2. split; [exact Hval|]. split; [exact Hst|].
  split; [exact Hrec|].
  rewrite Hre, Hsk, swept_lookup, Hrec. reflexivity.
Qed.

End Compose.

(** X10. [store] overwrites: after two [store]s under the same key and
    namespace, the record is the one of the second call alone (when the
    second call gives no TTL the record has no expiry, whatever TTL the
    first call gave), and [retrieve] returns the second value. *)
Theorem store_overwrites_the_whole_record :
  forall (env : Env) (w : World) (a b c : Args),
    fault_free env ->
    validateKey (arg_key a) = Return tt ->
    validateValue (arg_value a) = Return tt ->
    validateNamespace (arg_namespace a) = Return tt ->
    validateValue (arg_value b) = Return tt ->
    arg_key b = arg_key a -> arg_namespace b = arg_namespace a ->
    arg_ttl b = None ->
    arg_key c = arg_key a -> arg_namespace c = arg_namespace a ->
    exists (vb : list N) (w1 w2 w3 : World),
      arg_value b = VStr vb
      /\ handle env (mkRequest (u16 "store") (Some a)) w
         = (Return (store_ack a), w1)
      /\ handle env (mkRequest (u16 "store") (Some b)) w1
         = (Return (store_ack b), w2)
      /\ items w2 !! storageKey (arg_namespace a) (arg_key a)
         = Some (mkStoredValue vb (clock env (S (ticks w1))) None)
      /\ handle env (mkRequest (u16 "retrieve") (Some c)) w2
         = (Return (Text vb), w3).
Proof.
  intros env w a b c Hff Hk Hv Hn Hvb Hbk Hbn Httl Hck Hcn.
  destruct (store_valid_ff env w a Hff Hk Hv Hn) as (w1 & Hst & _).
  assert (Hkb : validateKey (arg_key b) = Return tt) by congruence.
  assert (Hnb : validateNamespace (arg_namespace b) = Return tt) by congruence.
  assert (Hkc : validateKey (arg_key c) = Return tt) by congruence.
  assert (Hnc : validateNamespace (arg_namespace c) = Return tt) by congruence.
  destruct (retrieve_after_store env Hff w1 b c Hkb Hvb Hnb Httl Hkc Hnc)
    as (vb & w2 & w3 & Hval & Hst2 & Hrec & Hre); [congruence|].
  exists vb, w1, w2, w3. rewrite Hbk, Hbn in Hrec. auto.
Qed.

Lemma store_overwrites_the_whole_record_witness :
  exists (vb : list N) (w1 w2 w3 : World),
    VStr (u16 "second") = VStr vb
    /\ handle (steady_env 1000) (store_request "a" "first" "proj" (Some 1))
         (world_of ∅)
       = (Return (Text (u16 "Successfully stored value for key: a")), w1)
    /\ handle (steady_env 1000) (store_request "a" "second" "proj" None) w1
       = (Return (Text (u16 "Successfully stored value for key: a")), w2)
    /\ items w2 !! u16 "proj:a" = Some (mkStoredValue vb 1000 None)
    /\ handle (steady_env 1000)
         (mkRequest (u16 "retrieve")
            (Some (key_args (VStr (u16 "a")) (VStr (u16 "proj"))))) w2
       = (Return (Text vb), w3).
Proof.
  apply (store_overwrites_the_whole_record (steady_env 1000) (world_of ∅)
           (mkArgs (VStr (u16 "a")) (VStr (u16 "first")) (VStr (u16 "proj"))
              (Some 1) VUndefined)
           (mkArgs (VStr (u16 "a")) (VStr (u16 "second")) (VStr (u16 "proj"))
              None VUndefined)
           (key_args (VStr (u16 "a")) (VStr (u16 "proj"))));
    solve [reflexivity | intros n; reflexivity].
Defined.

Lemma validateKey_VStr_ok (s : list N) :
  KEY_PATTERN_test s = true -> js_length s <= 256 ->
  validateKey (VStr s) = Return tt.
Proof.
  intros Ht Hl. unfold validateKey, MAX_KEY_LENGTH.
  cbn [truthy typeof_string negb orb str].
  assert (Hne : js_length s <> 0).
  { intros H0. apply js_length_nil_iff in H0. subst s. discriminate. }
  apply Z.eqb_neq in Hne. rewrite Hne. cbn [negb orb].
  destruct (Z.gtb_spec (js_length s) 256); [lia|].
  rewrite Ht. reflexivity.
Qed.

(** X11. The composition of namespace and key is ambiguous: a value
    stored under namespace [n] and key [k] is returned by a [retrieve]
    without namespace of the key [n:k] (when that key is at most 256
    characters long), the two calls having the same storage key. *)
Theorem namespaced_record_is_reachable_by_bare_key :
  forall (env : Env) (w : World) (a b : Args) (n k : list N),
    fault_free env ->
    arg_namespace a = VStr n ->
    arg_key a = VStr k ->
    validateKey (arg_key a) = Return tt ->
    validateValue (arg_value a) = Return tt ->
    validateNamespace (arg_namespace a) = Return tt ->
    arg_ttl a = None ->
    arg_namespace b = VUndefined ->
    arg_key b = VStr (n ++ u16 ":" ++ k) ->
    js_length (n ++ u16 ":" ++ k) <= 256 ->
    exists (v : list N) (w1 w2 : World),
      arg_value a = VStr v
      /\ handle env (mkRequest (u16 "store") (Some a)) w
         = (Return (store_ack a), w1)
      /\ handle env (mkRequest (u16 "retrieve") (Some b)) w1
         = (Return (Text v), w2).
Proof.
  intros env w a b n k Hff Hns Hkey Hk Hv Hn Httl Hbn Hbk Hlen.
  destruct (storageKey_well_formed _ _ Hk Hn) as ([Hwf _] & _ & Hcomp).
  specialize (Hcomp n Hns). rewrite Hkey in Hcomp, Hwf. cbn [str] in Hcomp.
  assert (Hkb : validateKey (arg_key b) = Return tt).
  { rewrite Hbk. apply validateKey_VStr_ok; [|exact Hlen].
    rewrite <- Hcomp. exact Hwf. }
  assert (Hnb : validateNamespace (arg_namespace b) = Return tt)
    by (rewrite Hbn; reflexivity).
  destruct (retrieve_after_store env Hff w a b Hk Hv Hn Httl Hkb Hnb)
    as (v & w1 & w2 & Hval & Hst & _ & Hre).
  { rewrite Hkey, Hcomp, Hbn, Hbk. reflexivity. }
  exists v, w1, w2. auto.
Qed.

Lemma namespaced_record_is_reachable_by_bare_key_witness :
  exists (v : list N) (w1 w2 : World),
    VStr (u16 "1") = VStr v
    /\ handle (steady_env 1000) (store_request "a" "1" "proj" None) (world_of ∅)
       = (Return (Text (u16 "Successfully stored value for key: a")), w1)
    /\ handle (steady_env 1000)
         (mkRequest (u16 "retrieve")
            (Some (key_args (VStr (u16 "proj" ++ u16 ":" ++ u16 "a")) VUndefined)))
         w1
       = (Return (Text v), w2).
Proof.
  apply (namespaced_record_is_reachable_by_bare_key (steady_env 1000)
           (world_of ∅)
           (mkArgs (VStr (u16 "a")) (VStr (u16 "1")) (VStr (u16 "proj"))
              None VUndefined)
           (key_args (VStr (u16 "proj" ++ u16 ":" ++ u16 "a")) VUndefined)
           (u16 "proj") (u16 "a"));
    solve [reflexivity | intros n; reflexivity | vm_compute; discriminate].
Defined.

(** X12. Within one namespace different keys never collide: for valid
    keys, equal storage keys under the same namespace mean equal keys,
    so that a [store] leaves the record of every other key of its
    namespace as the sweep left it. *)
Theorem keys_of_one_namespace_do_not_collide :
  forall (env : Env) (w : World) (a b : Args),
    fault_free env ->
    validateKey (arg_key a) = Return tt ->
    validateValue (arg_value a) = Return tt ->
    validateNamespace (arg_namespace a) = Return tt ->
    validateKey (arg_key b) = Return tt ->
    arg_namespace b = arg_namespace a ->
    arg_key b <> arg_key a ->
    storageKey (arg_namespace b) (arg_key b)
    <> storageKey (arg_namespace a) (arg_key a)
    /\ items (snd (handle env (mkRequest (u16 "store") (Some a)) w))
         !! storageKey (arg_namespace b) (arg_key b)
       = swept (clock env (ticks w)) (items w)
           !! storageKey (arg_namespace b) (arg_key b).
Proof.
  intros env w a b Hff Hk Hv Hn Hkb Hbn Hne.
  assert (Hsk : storageKey (arg_namespace b) (arg_key b)
                <> storageKey (arg_namespace a) (arg_key a)).
  { rewrite Hbn. intros Heq. apply Hne.
    apply validateKey_Return_inv in Hk, Hkb.
    destruct Hk as (ka & Hka & _), Hkb as (kb & Hkb & _).
    rewrite Hka, Hkb in *. f_equal. unfold storageKey in Heq. cbn [str] in Heq.
    destruct (truthy (arg_namespace a)); [|exact Heq].
    apply app_inv_head in Heq. apply app_inv_head in Heq. exact Heq. }
  split; [exact Hsk|].
  destruct (store_valid_ff env w a Hff Hk Hv Hn) as (w1 & Hst & Hit).
  rewrite Hst. cbn [snd]. rewrite Hit. apply lookup_insert_ne. congruence.
Qed.

Lemma keys_of_one_namespace_do_not_collide_witness :
  storageKey (VStr (u16 "ns")) (VStr (u16 "c"))
  <> storageKey (VStr (u16 "ns")) (VStr (u16 "a"))
  /\ items (snd (handle (steady_env 1000) (store_request "a" "9" "ns" None)
                   (world_of three_keys)))
       !! storageKey (VStr (u16 "ns")) (VStr (u16 "c"))
     = swept 1000 (items (world_of three_keys))
         !! storageKey (VStr (u16 "ns")) (VStr (u16 "c")).
Proof.
  apply (keys_of_one_namespace_do_not_collide (steady_env 1000)
           (world_of three_keys)
           (mkArgs (VStr (u16 "a")) (VStr (u16 "9")) (VStr (u16 "ns"))
              None VUndefined)
           (key_args (VStr (u16 "c")) (VStr (u16 "ns"))));
    solve [reflexivity | intros n; reflexivity | vm_compute; discriminate].
Defined.

(** ** Time to live *)

(** What [list] answers, in terms of the world the call starts from. *)
Lemma list_valid_ff (env : Env) (w : World) (b : Args) :
  fault_free env ->
  validateNamespace (arg_namespace b) = Return tt ->
  exists (c : Content) (w' : World),
    handle env (mkRequest (u16 "list") (Some b)) w = (Return c, w')
    /\ items w' = swept (clock env (ticks w)) (items w)
    /\ listed c = filteredKeys b (map_to_list (items w')).*1
    /\ (truthy (arg_includeMetadata b) = false -> c = JsonKeys (listed c))
    /\ (truthy (arg_includeMetadata b) = true ->
        exists l, c = JsonItems l /\ Forall (item_of (items w')) l).
Proof.
  intros Hff Hn.
  destruct (preamble_ff env Hff w) as (w0 & Hpre & Hit0 & _).
  destruct (list_case_ff env Hff b w0 Hn) as (w' & Hit & Hrun).
  rewrite handle_unfold, Hpre, dispatch_list.
  destruct (truthy (arg_includeMetadata b)).
  - destruct Hrun as (l & Hrun & Hkeys & Hall).
    exists (JsonItems l), w'.
    split; [apply try_catch_rethrow_Return; exact Hrun|].
    rewrite Hit. split; [exact Hit0|]. split; [exact Hkeys|].
    split; [discriminate|]. intros _. exists l. auto.
  - exists (JsonKeys (filteredKeys b (map_to_list (items w0)).*1)), w'.
    split; [apply try_catch_rethrow_Return; exact Hrun|].
    rewrite Hit. split; [exact Hit0|]. split; [reflexivity|].
    split; [reflexivity | discriminate].
Qed.

Lemma In_keys (m : gmap (list N) StoredValue) (j : list N) :
  In j (map_to_list m).*1 <-> is_Some (m !! j).
Proof. rewrite <- list_elem_of_In. apply elem_of_keys. Qed.

Lemma expired_le_false (now e : Z) (d : StoredValue) :
  expiry d = Some e -> now <= e -> expired now d = false.
Proof.
  intros He Hle. unfold expired. rewrite He.
  destruct (Z.gtb_spec now e); [lia | apply andb_false_r].
Qed.





(** ** Listing with metadata, and what a listing contains *)

(** X15. [list] with [includeMetadata] answers one entry per filtered
    storage key, in the order of the keys, each carrying the time stamp
    and the expiry of the record stored under its key; and every record
    reported had not expired at the clock reading of the call's sweep. *)
Theorem list_with_metadata_reports_live_records :
  forall (env : Env) (w : World) (b : Args),
    fault_free env ->
    validateNamespace (arg_namespace b) = Return tt ->
    truthy (arg_includeMetadata b) = true ->
    exists (l : list Item) (w' : World),
      handle env (mkRequest (u16 "list") (Some b)) w = (Return (JsonItems l), w')
      /\ List.map item_key l
         = filteredKeys b
             (map_to_list (swept (clock env (ticks w)) (items w))).*1
      /\ Forall (fun it =>
                   exists d, items w !! item_key it = Some d
                             /\ expired (clock env (ticks w)) d = false
                             /\ item_timestamp it = timestamp d
                             /\ item_expiry it = expiry d) l.
Proof.
  intros env w b Hff Hn Hmeta.
  destruct (list_valid_ff env w b Hff Hn)
    as (c & w' & Hli & Hit & Hkeys & _ & Hitems).
  destruct (Hitems Hmeta) as (l & -> & Hall).
  exists l, w'. split; [exact Hli|]. cbn [listed] in Hkeys.
  rewrite Hit in Hkeys. split; [exact Hkeys|].
  rewrite Hit in Hall. eapply Forall_impl; [exact Hall|].
  intros it (d & Hd & Hts & Hex). rewrite swept_lookup in Hd.
  destruct (items w !! item_key it) as [d0|]; [|discriminate].
  destruct (expired (clock env (ticks w)) d0) eqn:E; [discriminate|].
  injection Hd as ->. exists d. auto.
Qed.

Lemma list_with_metadata_reports_live_records_witness :
  exists (l : list Item) (w' : World),
    handle (steady_env 1000)
      (mkRequest (u16 "list")
         (Some (mkArgs VUndefined VUndefined VUndefined None (VBool true))))
      (world_of old_and_new)
    = (Return (JsonItems l), w')
    /\ List.map item_key l
       = filteredKeys
           (mkArgs VUndefined VUndefined VUndefined None (VBool true))
           (map_to_list (swept (clock (steady_env 1000)
                                  (ticks (world_of old_and_new)))
                           (items (world_of old_and_new)))).*1
    /\ Forall (fun it =>
                 exists d, items (world_of old_and_new) !! item_key it = Some d
                           /\ expired (clock (steady_env 1000)
                                         (ticks (world_of old_and_new))) d
                              = false
                           /\ item_timestamp it = timestamp d
                           /\ item_expiry it = expiry d) l.
Proof.
  apply (list_with_metadata_reports_live_records (steady_env 1000)
           (world_of old_and_new)
           (mkArgs VUndefined VUndefined VUndefined None (VBool true)));
    solve [reflexivity | intros n; reflexivity].
Defined.

(** X16. What is stored is listed: after a [store] without TTL, a
    [list] (with or without metadata) reports the storage key of the
    record when it is given no namespace or the namespace of the
    [store]; given another namespace [n] it reports it exactly when the
    storage key starts with [n:]. *)
Theorem stored_key_is_listed :
  forall (env : Env) (w : World) (a b : Args),
    fault_free env ->
    validateKey (arg_key a) = Return tt ->
    validateValue (arg_value a) = Return tt ->
    validateNamespace (arg_namespace a) = Return tt ->
    arg_ttl a = None ->
    validateNamespace (arg_namespace b) = Return tt ->
    exists (w1 w2 : World) (answer : Content),
      handle env (mkRequest (u16 "store") (Some a)) w
      = (Return (store_ack a), w1)
      /\ handle env (mkRequest (u16 "list") (Some b)) w1 = (Return answer, w2)
      /\ (arg_namespace b = VUndefined ->
          In (storageKey (arg_namespace a) (arg_key a)) (listed answer))
      /\ (arg_namespace b = arg_namespace a ->
          In (storageKey (arg_namespace a) (arg_key a)) (listed answer))
      /\ (forall n, arg_namespace b = VStr n ->
          (In (storageKey (arg_namespace a) (arg_key a)) (listed answer)
           <-> startsWith (storageKey (arg_namespace a) (arg_key a))
                 (n ++ u16 ":") = true)).
Proof.
  intros env w a b Hff Hk Hv Hn Httl Hnb.
  destruct (store_valid_ff env w a Hff Hk Hv Hn) as (w1 & Hst & Hit1).
  destruct (list_valid_ff env w1 b Hff Hnb)
    as (answer & w2 & Hli & Hit2 & Hkeys & _).
  assert (Hin : In (storageKey (arg_namespace a) (arg_key a))
                  (map_to_list (items w2)).*1).
  { apply In_keys. rewrite Hit2, swept_lookup, Hit1, lookup_insert_eq.
    unfold stored_record, expired. cbn [expiry]. rewrite Httl. eauto. }
  assert (Hundef : arg_namespace b = VUndefined ->
                   In (storageKey (arg_namespace a) (arg_key a)) (listed answer)).
  { intros Hu. rewrite Hkeys. unfold filteredKeys. rewrite Hu. exact Hin. }
  assert (Hstr : forall n, arg_namespace b = VStr n ->
            (In (storageKey (arg_namespace a) (arg_key a)) (listed answer)
             <-> startsWith (storageKey (arg_namespace a) (arg_key a))
                   (n ++ u16 ":") = true)).
  { intros n Hbn. rewrite Hkeys. unfold filteredKeys. rewrite Hbn.
    rewrite Hbn in Hnb. cbn [validateNamespace] in Hnb.
    apply validateKey_Return_inv in Hnb.
    destruct Hnb as (n' & Hn' & Ht & _). injection Hn' as <-.
    assert (Hne : js_length n <> 0).
    { intros H0. apply js_length_nil_iff in H0. subst n. discriminate. }
    apply Z.eqb_neq in Hne. cbn [truthy str]. rewrite Hne. cbn [negb].
    rewrite filter_In. tauto. }
  exists w1, w2, answer. split; [exact Hst|]. split; [exact Hli|].
  split; [exact Hundef|]. split; [|exact Hstr].
  intros Hsame. destruct (arg_namespace b) as [| |x|x|n|] eqn:Eb;
    try (exfalso; cbn [validateNamespace] in Hnb;
         apply validateKey_Return_inv in Hnb;
         destruct Hnb as (n' & Hn' & _); discriminate).
  - apply Hundef. reflexivity.
  - apply (Hstr n eq_refl). apply startsWith_spec.
    destruct (storageKey_well_formed _ _ Hk Hn) as (_ & _ & Hcomp).
    rewrite (Hcomp n (eq_sym Hsame)). exists (str (arg_key a)).
    rewrite <- app_assoc. reflexivity.
Qed.

Lemma stored_key_is_listed_witness :
  exists (w1 w2 : World) (answer : Content),
    handle (steady_env 1000) (store_request "a" "1" "ns" None)
      (world_of three_keys)
    = (Return (Text (u16 "Successfully stored value for key: a")), w1)
    /\ handle (steady_env 1000) (mkRequest (u16 "list") (Some list_ns_args)) w1
       = (Return answer, w2)
    /\ (arg_namespace list_ns_args = VUndefined ->
        In (u16 "ns:a") (listed answer))
    /\ (arg_namespace list_ns_args = VStr (u16 "ns") ->
        In (u16 "ns:a") (listed answer))
    /\ (forall n, arg_namespace list_ns_args = VStr n ->
        (In (u16 "ns:a") (listed answer)
         <-> startsWith (u16 "ns:a") (n ++ u16 ":") = true)).
Proof.
  apply (stored_key_is_listed (steady_env 1000) (world_of three_keys)
           (mkArgs (VStr (u16 "a")) (VStr (u16 "1")) (VStr (u16 "ns"))
              None VUndefined)
           list_ns_args);
    solve [reflexivity | intros n; reflexivity | vm_compute; reflexivity].
Defined.

(** ** A sweep that fails midway *)

Lemma removes_only_expired_refl (now : Z) (w : World) :
  removes_only_expired now w w.
Proof. intros j. left. reflexivity. Qed.

Lemma removes_only_expired_trans (now : Z) (w1 w2 w3 : World) :
  removes_only_expired now w1 w2 ->
  removes_only_expired now w2 w3 ->
  removes_only_expired now w1 w3.
Proof.
  intros H12 H23 j.
  destruct (H23 j) as [H|(Hnone & d & Hd & Hex)].
  - rewrite H. apply H12.
  - right. split; [exact Hnone|]. exists d. split; [|exact Hex].
    destruct (H12 j) as [H|(Hnone' & _)]; congruence.
Qed.

Lemma sweep_body_removes_only_expired (env : Env) (now : Z) (k : list N) :
  M_rel (removes_only_expired now) (sweep_body env now k).
Proof.
  intros w j.
  unfold sweep_body, bind, storage_getItem, storage_removeItem, storage_call, ret.
  destruct (fault env (io_calls w)); cbn; [left; reflexivity|].
  destruct (items w !! k) as [d|] eqn:Ek; cbn; [|left; reflexivity].
  destruct (expired now d) eqn:Ex; cbn; [|left; reflexivity].
  destruct (fault env (S (io_calls w))); cbn; [left; reflexivity|].
  destruct (decide (j = k)) as [->|Hjk].
  - right. rewrite lookup_delete_eq. eauto.
  - left. apply lookup_delete_ne. congruence.
Qed.

Lemma cleanExpiredValues_removes_only_expired (env : Env) (w : World) :
  removes_only_expired (clock env (ticks w)) w (snd (cleanExpiredValues env w)).
Proof.
  rewrite cleanExpiredValues_unfold.
  unfold bind at 1. unfold storage_keys, storage_call.
  destruct (fault env (io_calls w)); [intros j; left; reflexivity|].
  cbn [fst snd]. unfold bind, Date_now.
  match goal with |- context [for_of ?ks (sweep_body env ?now) ?w1] =>
    pose proof (for_of_rel (removes_only_expired now)
                  (removes_only_expired_refl now)
                  (removes_only_expired_trans now) ks (sweep_body env now)
                  (sweep_body_removes_only_expired env now) w1) as Hk;
    destruct (for_of ks (sweep_body env now) w1) as [[[]|e] w2] end;
    exact Hk.
Qed.

Lemma ensureInitialized_items (env : Env) (w : World) :
  items (snd (ensureInitialized env w)) = items w.
Proof.
  unfold ensureInitialized, bind, storage_init, storage_call.
  destruct (initialized w); cbn [negb]; [reflexivity|].
  destruct (fault env (io_calls w)); reflexivity.
Qed.

Lemma preamble_removes_only_expired (env : Env) (w : World) :
  removes_only_expired (clock env (ticks w)) w (snd (preamble env w)).
Proof.
  unfold preamble, bind.
  pose proof (ensureInitialized_items env w) as Hi.
  pose proof (ensureInitialized_ticks env w) as Ht.
  destruct (ensureInitialized env w) as [[[]|e] w0]; cbn [snd] in *.
  - pose proof (cleanExpiredValues_removes_only_expired env w0) as H.
    rewrite Ht in H. intros j. specialize (H j). rewrite Hi in H. exact H.
  - intros j. left. rewrite Hi. reflexivity.
Qed.

(** X17. The steps before the [try], completed or cut short by a storage
    failure, only ever remove records that had expired at the sweep's
    clock reading: they add no record and change none.  So when a call
    fails with an error that is not an [McpError] (one that escaped from
    those steps), nothing was written and only expired records can be
    missing. *)
Theorem interrupted_sweep_removes_only_expired :
  forall (env : Env) (w : World),
    removes_only_expired (clock env (ticks w)) w (snd (preamble env w))
    /\ (forall req e w',
          handle env req w = (Throw e, w') ->
          is_McpError e = false ->
          removes_only_expired (clock env (ticks w)) w w').
Proof.
  intros env w. split; [apply preamble_removes_only_expired|].
  intros req e w' Hrun Hraw.
  destruct (handle_error_origin env req w w' e Hrun) as [(c & m & ->)|Hpre];
    [discriminate|].
  pose proof (preamble_removes_only_expired env w) as H.
  rewrite Hpre in H. exact H.
Qed.

(** ** The limit on values, as enforced *)

(** X18. [validateValue] accepts exactly the strings of at most
    1,048,576 UTF-16 code units, the empty string included; everything
    else (a longer string, a value that is not a string) is rejected
    with [InvalidParams]. *)
Theorem validateValue_accepts_exactly_short_strings :
  forall v : JsValue,
    (validateValue v = Return tt
     <-> exists s, v = VStr s /\ js_length s <= 1048576)
    /\ (validateValue v <> Return tt ->
        exists m, validateValue v = Throw (McpError InvalidParams m))
    /\ validateValue (VStr []) = Return tt
    /\ (forall s, js_length s = 1048577 ->
        validateValue (VStr s)
        = Throw (McpError InvalidParams
                   (u16 "Value length must not exceed 1048576 bytes"))).
Proof.
  intros v. split; [|split; [|split]].
  - rewrite validateValue_ok_iff. split.
    + intros [Ht Hl]. destruct v; try discriminate. eauto.
    + intros (s & -> & Hl). split; [reflexivity | exact Hl].
  - intros Hbad. destruct (validateValue_cases v) as [H|H];
      [contradiction | exact H].
  - reflexivity.
  - intros s Hs. unfold validateValue, MAX_VALUE_LENGTH.
    cbn [typeof_string negb str]. rewrite Hs. reflexivity.
Qed.
